(** * ECDH-1PU key exchange with the NIST SP 800-56A single-step KDF

    A shallow embedding of the Go package [exchange] (ecdh1pu.go, api.go):
    [ECDH1PU], [SecretKey], [computeSharedSecret], [lengthPrefixedArray],
    [uint32ToBytes] and [nistKdf], together with models of the library
    primitives the package calls (big-endian encodings, [big.Int.Bytes],
    binary64 arithmetic, [hash.Hash], [elliptic.Curve]). *)

From Stdlib Require Import ZArith String Ascii Bool Lia List.
From Stdlib Require Import Strings.Byte.
From Stdlib Require Import Floats.SpecFloat.
From Bignums Require Import BigZ.
Import ListNotations.

Local Open Scope string_scope.
Local Open Scope list_scope.
Local Open Scope Z_scope.

(** ** Bytes and big-endian encodings *)

Module Bytes.

(** Go's conversion [byte(v)]: the low eight bits of [v]. *)
Definition byte_of_Z (v : Z) : byte :=
  match Byte.of_N (Z.to_N (v mod 256)) with
  | Some b => b
  | None => x00
  end.

Definition Z_of_byte (b : byte) : Z := Z.of_N (Byte.to_N b).

(** Go's [len(s)], an [int]. *)
Definition len {A} (s : list A) : Z := Z.of_nat (length s).

(** Go's conversion [uint32(v)] from a wider integer. *)
Definition uint32 (v : Z) : Z := v mod 2 ^ 32.

(** [binary.BigEndian.PutUint32] on a fresh four-byte buffer. *)
Definition PutUint32 (v : Z) : list byte :=
  [ byte_of_Z (Z.shiftr v 24); byte_of_Z (Z.shiftr v 16);
    byte_of_Z (Z.shiftr v 8); byte_of_Z v ].

(** The unsigned integer a big-endian byte string denotes
    ([big.Int.SetBytes], [binary.BigEndian.Uint32]). *)
Definition be_decode (bs : list byte) : Z :=
  fold_left (fun acc b => acc * 256 + Z_of_byte b) bs 0.

(** Big-endian digits of a positive number, most significant first,
    accumulated in front of [acc]; [fuel] bounds the number of digits. *)
Fixpoint be_digits (fuel : nat) (v : Z) (acc : list byte) : list byte :=
  match fuel with
  | O => acc
  | S fuel' =>
      if v =? 0 then acc
      else be_digits fuel' (v / 256) (byte_of_Z v :: acc)
  end.

(** The method [Bytes] of [big.Int]: the absolute value as a big-endian byte slice,
    with no leading zero byte (empty for zero). *)
Definition BigIntBytes (x : Z) : list byte :=
  be_digits (S (Z.to_nat (Z.log2 (Z.abs x)))) (Z.abs x) [].

(** [s[:n]] for a slice [s] built by appending to [make([]byte, 0, n)]:
    when [len(s) < n] the slice expression extends into the zeroed
    capacity of the backing array. *)
Definition slice_to (n : Z) (s : list byte) : list byte :=
  firstn (Z.to_nat n) (s ++ repeat x00 (Z.to_nat n - length s)).

End Bytes.
Import Bytes.

(** ** binary64 arithmetic, as Go's [float64] *)

Module Float64.

Definition prec : Z := 53.
Definition emax : Z := 1024.

Definition float64 := spec_float.

(** The conversion [float64(n)] of an integer: round to nearest even. *)
Definition of_int (n : Z) : float64 := binary_normalize prec emax n 0 false.

(** The quotient [x / y] of two [float64] values. *)
Definition div (x y : float64) : float64 := SFdiv prec emax x y.

(** [math.Ceil]: the least integer value greater than or equal to [x];
    zeros, infinities and NaN are returned unchanged. *)
Definition Ceil (x : float64) : float64 :=
  match x with
  | S754_finite s m e =>
      if 0 <=? e then x
      else
        let d := 2 ^ (- e) in
        if s then binary_normalize prec emax (- (Z.pos m / d)) 0 true
        else binary_normalize prec emax (- ((- Z.pos m) / d)) 0 false
  | _ => x
  end.

(** What the conversion [int(x)] gives when the truncated value of [x]
    is not an [int]: the language leaves it to the implementation. *)
Class Platform := { int_unrepresentable : float64 -> Z }.

(** amd64: CVTTSD2SQ answers the "integer indefinite" value. *)
Definition amd64 : Platform := {| int_unrepresentable := fun _ => - 2 ^ 63 |}.

(** arm64: FCVTZS saturates, and NaN converts to zero. *)
Definition arm64 : Platform :=
  {| int_unrepresentable := fun x =>
       match x with
       | S754_nan => 0
       | S754_infinity true | S754_finite true _ _ => - 2 ^ 63
       | _ => 2 ^ 63 - 1
       end |}.

(** The conversion [int(x)] to a 64-bit [int]: truncation toward zero. *)
Definition to_int `{Platform} (x : float64) : Z :=
  match x with
  | S754_zero _ => 0
  | S754_finite s m e =>
      let t := if 0 <=? e then Z.pos m * 2 ^ e else Z.pos m / 2 ^ (- e) in
      let v := if s then - t else t in
      if (- 2 ^ 63 <=? v) && (v <? 2 ^ 63) then v else int_unrepresentable x
  | _ => int_unrepresentable x
  end.

End Float64.

(** ** Library interfaces the package is written against *)

(** [hash.Hash], over the type [S] of the states of the hash object.
    [Write] and [Reset] mutate the object, [Sum] and [Size] only read it. *)
Class Hash (S : Type) := {
  Write : S -> list byte -> S;
  Sum : S -> list byte -> list byte;
  Reset : S -> S;
  Size : S -> Z
}.

(** [elliptic.Curve], reduced to the one method the package calls; a
    [*big.Int] is the integer it holds. *)
Record Curve := { ScalarMult : Z -> Z -> list byte -> Z * Z }.

(** [ecdsa.PublicKey] and [ecdsa.PrivateKey] (which embeds its public key). *)
Record PublicKey := { PubCurve : Curve; X : Z; Y : Z }.
Record PrivateKey := { Public : PublicKey; D : Z }.

(** A Go result pair [([]byte, error)]: [Ok v] is [(v, nil)], and
    [Err msg] is [(nil, err)] with [err.Error() = msg]. *)
Inductive result (A : Type) :=
| Ok (v : A)
| Err (msg : string).
Arguments Ok {A} v.
Arguments Err {A} msg.

(** ** The package *)

Section Exchange.

Context {State : Type} `{HashState : Hash State} `{Plat : Float64.Platform}.

(** [type ecdh1PuExchange struct]; a nil pointer or nil func is [None]. *)
Record ecdh1PuExchange := {
  ourPrivate : option PrivateKey;
  algorithmID : list byte;
  dkLenBits : Z;
  partyInfo : list byte;
  h : option (unit -> State)
}.

Definition ECDH1PU (staticPrivateKey : option PrivateKey) (h : option (unit -> State))
    (algorithmID : list byte) (dkLenBits : Z) (agreementPartyInfo : list byte)
    : ecdh1PuExchange :=
  {| ourPrivate := staticPrivateKey;
     h := h;
     algorithmID := algorithmID;
     dkLenBits := dkLenBits;
     partyInfo := agreementPartyInfo |}.

Definition computeSharedSecret (exchange : ecdh1PuExchange)
    (ourEphemeralPrivateKey : option PrivateKey) (theirPublicKey : option PublicKey)
    : result (list byte) :=
  match ourPrivate exchange with
  | None => Err "unable to process with nil private key"
  | Some ourPrivate =>
  match ourEphemeralPrivateKey with
  | None => Err "unable to process with nil ephemeral private key"
  | Some ourEphemeralPrivateKey =>
  match theirPublicKey with
  | None => Err "unable to process with remote public key"
  | Some theirPublicKey =>
      let '(Ze, _) := ScalarMult (PubCurve (Public ourEphemeralPrivateKey))
                        (X theirPublicKey) (Y theirPublicKey)
                        (BigIntBytes (D ourEphemeralPrivateKey)) in
      let '(Zs, _) := ScalarMult (PubCurve (Public ourPrivate))
                        (X theirPublicKey) (Y theirPublicKey)
                        (BigIntBytes (D ourPrivate)) in
      let Z := BigIntBytes Ze ++ BigIntBytes Zs in
      Ok Z
  end end end.

Definition lengthPrefixedArray (value : list byte) : list byte :=
  if len value =? 0 then []
  else
    let result := PutUint32 (uint32 (len value)) in
    result ++ value.

Definition uint32ToBytes (value : Z) : list byte :=
  let result := PutUint32 (uint32 value) in
  result.

(** [int(math.Ceil(float64(dkLen) / float64(h.Size())))]. *)
Definition kdf_reps (size dkLen : Z) : Z :=
  Float64.to_int
    (Float64.Ceil (Float64.div (Float64.of_int dkLen) (Float64.of_int size))).

(** The loop [for counter := 1; counter <= reps; counter++] of [nistKdf],
    from the given [counter] on; a round hashes the counter, the shared
    secret and the info into a reset hash object and appends the digest. *)
Fixpoint kdf_rounds (fuel : nat) (reps counter : Z) (h : State)
    (sharedSecret info dk : list byte) : list byte * State :=
  match fuel with
  | O => (dk, h)
  | S fuel' =>
      if counter <=? reps then
        let h := Reset h in
        let h := Write h (uint32ToBytes (uint32 counter)) in
        let h := Write h sharedSecret in
        let h := Write h info in
        let dk := Sum h dk in
        kdf_rounds fuel' reps (counter + 1) h sharedSecret info dk
      else (dk, h)
  end.

(** [nistKdf]; the second component is the hash object as the call
    leaves it. The loop runs [reps] times at most, which is its fuel. *)
Definition nistKdf (h : State) (sharedSecret info : list byte) (dkLen : Z)
    : result (list byte) * State :=
  let reps := kdf_reps (Size h) dkLen in
  if reps >=? 2 ^ 32 then (Err "too many round count for KDF", h)
  else
    let dk := [] in
    let '(dk, h) := kdf_rounds (Z.to_nat reps) reps 1 h sharedSecret info dk in
    (Ok (slice_to dkLen dk), h).

(** The info [( AlgorithmID || PartyUInfo || PartyVInfo || KeyLength )]
    that [SecretKey] prepares for the KDF. *)
Definition fixedInfo (exchange : ecdh1PuExchange) (theirAgreementInfo : list byte)
    : list byte :=
  let fixedInfo := [] in
  let fixedInfo := fixedInfo ++ lengthPrefixedArray (algorithmID exchange) in
  let fixedInfo := fixedInfo ++ lengthPrefixedArray (partyInfo exchange) in
  let fixedInfo := fixedInfo ++ lengthPrefixedArray theirAgreementInfo in
  let fixedInfo := fixedInfo ++ uint32ToBytes (dkLenBits exchange) in
  fixedInfo.

Definition SecretKey (exchange : ecdh1PuExchange)
    (ephemeralPrivateKey : option PrivateKey) (theirPublicKey : option PublicKey)
    (theirAgreementInfo : list byte) : result (list byte) :=
  match ephemeralPrivateKey with
  | None => Err "ephemeral private key is mandatory"
  | Some _ =>
  match theirPublicKey with
  | None => Err "their public key is mandatory"
  | Some _ =>
  match h exchange with
  | None => Err "hash function is mandatory"
  | Some new_hash =>
  match computeSharedSecret exchange ephemeralPrivateKey theirPublicKey with
  | Err err => Err err
  | Ok sharedSecret =>
      let fixedInfo := fixedInfo exchange theirAgreementInfo in
      match fst (nistKdf (new_hash tt) sharedSecret fixedInfo
                   (Z.shiftr (dkLenBits exchange) 3)) with
      | Err err => Err ("unable to apply kdf: " ++ err)%string
      | Ok dk => Ok dk
      end
  end end end end.

End Exchange.

Arguments ecdh1PuExchange State : clear implicits.

(** ** What the specification says, in its own words *)

Module Spec.

(** "A 4-byte big-endian unsigned integer": the four base-256 digits. *)
Definition BigEndian32 (n : Z) : list byte :=
  [ byte_of_Z (n / 256 ^ 3); byte_of_Z (n / 256 ^ 2);
    byte_of_Z (n / 256); byte_of_Z n ].

(** "If [f] is empty, contributes zero bytes; otherwise contributes a
    4-byte big-endian unsigned length of [f] followed by [f] verbatim." *)
Definition field (f : list byte) : list byte :=
  match f with
  | [] => []
  | _ => BigEndian32 (len f) ++ f
  end.

(** "Concatenation order is fixed: algorithmId, localPartyInfo,
    remotePartyInfo, dkLenBits", the last one a plain 4-byte integer. *)
Definition build_fixed_info (algorithm_id local_party_info remote_party_info : list byte)
    (dkLenBits : Z) : list byte :=
  field algorithm_id ++ field local_party_info ++ field remote_party_info
    ++ BigEndian32 dkLenBits.

(** "Required round count reps = ceil(outputByteLength / hashLen)". *)
Definition ceil_div (a b : Z) : Z := (a + b - 1) / b.

(** The counters [1 .. reps]. *)
Definition counters (reps : Z) : list Z :=
  map (fun i => Z.of_nat i) (seq 1 (Z.to_nat reps)).

(** "For counter = 1 .. reps: compute digest_counter =
    Hash(BigEndian32(counter) || sharedSecret || fixedInfo); append to
    output accumulator. After all rounds, truncate accumulator to exactly
    outputByteLength bytes." *)
Definition derive (Hash : list byte -> list byte) (hashLen : Z)
    (sharedSecret fixedInfo : list byte) (outputByteLength : Z) : list byte :=
  firstn (Z.to_nat outputByteLength)
    (flat_map (fun counter => Hash (BigEndian32 counter ++ sharedSecret ++ fixedInfo))
       (counters (ceil_div outputByteLength hashLen))).

(** An error "wrapped with context": the inner message follows a
    non-empty description of the step that failed. *)
Definition wraps (inner outer : string) : Prop :=
  exists context : string, context <> EmptyString /\ outer = (context ++ inner)%string.

End Spec.

(** The contract of [hash.Hash]: the object holds the bytes written since
    the last [Reset]; [Sum] appends their digest, of [Size] bytes, to its
    argument and leaves the object as it is. *)
Class LawfulHash (State : Type) `{Hash State} := {
  digest : list byte -> list byte;
  hashLen : Z;
  written : State -> list byte;
  written_Reset : forall s, written (Reset s) = [];
  written_Write : forall s p, written (Write s p) = written s ++ p;
  Sum_digest : forall s b, Sum s b = b ++ digest (written s);
  Size_hashLen : forall s, Size s = hashLen;
  digest_len : forall m, len (digest m) = hashLen
}.

(** ** The primitives of the known-answer test *)

(** [crypto/sha256], after FIPS 180-4 and the loop of [blockGeneric]. *)
Module sha256.

Definition mask32 : Z := 2 ^ 32 - 1.
Definition add32 (x y : Z) : Z := Z.land (x + y) mask32.

(** [bits.RotateLeft32(x, -n)] *)
Definition rotr (n x : Z) : Z :=
  Z.lor (Z.shiftr x n) (Z.land (Z.shiftl x (32 - n)) mask32).

Definition not32 (x : Z) : Z := Z.lxor x mask32.

(** The round constants [_K], in decimal. *)
Definition _K : list Z :=
  [1116352408; 1899447441; 3049323471; 3921009573; 961987163;
   1508970993; 2453635748; 2870763221; 3624381080; 310598401;
   607225278; 1426881987; 1925078388; 2162078206; 2614888103;
   3248222580; 3835390401; 4022224774; 264347078; 604807628;
   770255983; 1249150122; 1555081692; 1996064986; 2554220882;
   2821834349; 2952996808; 3210313671; 3336571891; 3584528711;
   113926993; 338241895; 666307205; 773529912; 1294757372;
   1396182291; 1695183700; 1986661051; 2177026350; 2456956037;
   2730485921; 2820302411; 3259730800; 3345764771; 3516065817;
   3600352804; 4094571909; 275423344; 430227734; 506948616;
   659060556; 883997877; 958139571; 1322822218; 1537002063;
   1747873779; 1955562222; 2024104815; 2227730452; 2361852424;
   2428436474; 2756734187; 3204031479; 3329325298].

(** The initial hash value, in decimal. *)
Definition init : list Z :=
  [1779033703; 3144134277; 1013904242; 2773480762; 1359893119;
   2600822924; 528734635; 1541459225].

(** The sixteen big-endian words of a chunk. *)
Fixpoint words (p : list byte) : list Z :=
  match p with
  | b0 :: b1 :: b2 :: b3 :: rest => be_decode [b0; b1; b2; b3] :: words rest
  | _ => []
  end.

(** The message schedule, latest word first: [w] holds w[i-1], w[i-2], ... *)
Fixpoint extend (n : nat) (w : list Z) : list Z :=
  match n with
  | O => w
  | S n' =>
      let v1 := nth 1 w 0 in
      let t1 := Z.lxor (Z.lxor (rotr 17 v1) (rotr 19 v1)) (Z.shiftr v1 10) in
      let v2 := nth 14 w 0 in
      let t2 := Z.lxor (Z.lxor (rotr 7 v2) (rotr 18 v2)) (Z.shiftr v2 3) in
      extend n' (add32 (add32 (add32 t1 (nth 6 w 0)) t2) (nth 15 w 0) :: w)
  end.

Definition schedule (chunk : list byte) : list Z :=
  rev (extend 48 (rev (words chunk))).

(** One of the sixty-four rounds, on the working variables a..h. *)
Definition round (st : list Z) (kw : Z * Z) : list Z :=
  match st with
  | [a; b; c; d; e; f; g; h] =>
      let t1 := add32 (add32 (add32 (add32 h
                  (Z.lxor (Z.lxor (rotr 6 e) (rotr 11 e)) (rotr 25 e)))
                  (Z.lxor (Z.land e f) (Z.land (not32 e) g))) (fst kw)) (snd kw) in
      let t2 := add32 (Z.lxor (Z.lxor (rotr 2 a) (rotr 13 a)) (rotr 22 a))
                  (Z.lxor (Z.lxor (Z.land a b) (Z.land a c)) (Z.land b c)) in
      [add32 t1 t2; a; b; c; add32 d t1; e; f; g]
  | _ => st
  end.

Definition block (hs : list Z) (chunk : list byte) : list Z :=
  let st := fold_left round (combine _K (schedule chunk)) hs in
  map (fun p => add32 (fst p) (snd p)) (combine hs st).

Fixpoint blocks (n : nat) (hs : list Z) (p : list byte) : list Z :=
  match n with
  | O => hs
  | S n' => blocks n' (block hs (firstn 64 p)) (skipn 64 p)
  end.

Definition PutUint64 (v : Z) : list byte :=
  PutUint32 (Z.shiftr v 32) ++ PutUint32 v.

(** Padding: a one bit, zeros up to 56 mod 64, the bit length. *)
Definition pad (msg : list byte) : list byte :=
  msg ++ x80 :: repeat x00 (Z.to_nat ((55 - len msg) mod 64))
      ++ PutUint64 (8 * len msg).

Definition Sum256 (msg : list byte) : list byte :=
  let p := pad msg in
  flat_map PutUint32 (blocks (length p / 64) init p).

(** The hash object of [sha256.New], represented by the bytes it has
    absorbed since it was last reset. *)
Record digest := { absorbed : list byte }.

Definition New (_ : unit) : digest := {| absorbed := [] |}.

#[global] Instance Hash_digest : Hash digest := {
  Write d p := {| absorbed := absorbed d ++ p |};
  Sum d b := b ++ Sum256 (absorbed d);
  Reset _ := {| absorbed := [] |};
  Size _ := 32
}.

End sha256.

(** [crypto/elliptic]: scalar multiplication on a short Weierstrass curve
    with a = -3 in Jacobian coordinates, as [CurveParams.ScalarMult]. The
    arbitrary-precision [big.Int] values of the computation are [bigZ]
    numbers. *)
Module elliptic.

Local Open Scope bigZ_scope.

Section Params.

(** The order of the underlying field, a prime. *)
Variable P : bigZ.

Fixpoint pow_mod (a : bigZ) (e : positive) : bigZ :=
  match e with
  | xH => a mod P
  | xO e' => let t := pow_mod a e' in (t * t) mod P
  | xI e' => let t := pow_mod a e' in ((t * t) mod P * a) mod P
  end.

(** [ModInverse(z, P)] for the prime [P], by Fermat's little theorem. *)
Definition ModInverse (z : bigZ) : bigZ := pow_mod z (Z.to_pos (BigZ.to_Z P - 2)).

Definition doubleJacobian (x y z : bigZ) : bigZ * bigZ * bigZ :=
  let delta := (z * z) mod P in
  let gamma := (y * y) mod P in
  let alpha := (3 * ((x - delta) * (x + delta))) mod P in
  let beta := (x * gamma) mod P in
  let x3 := (alpha * alpha - 8 * beta) mod P in
  let z3 := ((y + z) * (y + z) - gamma - delta) mod P in
  let y3 := (alpha * (4 * beta - x3) - 8 * gamma * gamma) mod P in
  (x3, y3, z3).

Definition addJacobian (x1 y1 z1 x2 y2 z2 : bigZ) : bigZ * bigZ * bigZ :=
  if z1 =? 0 then (x2, y2, z2)
  else if z2 =? 0 then (x1, y1, z1)
  else
    let z1z1 := (z1 * z1) mod P in
    let z2z2 := (z2 * z2) mod P in
    let u1 := (x1 * z2z2) mod P in
    let u2 := (x2 * z1z1) mod P in
    let h := (u2 - u1) mod P in
    let xEqual := h =? 0 in
    let i := (2 * h) * (2 * h) in
    let j := h * i in
    let s1 := (y1 * z2 * z2z2) mod P in
    let s2 := (y2 * z1 * z1z1) mod P in
    let r := (s2 - s1) mod P in
    let yEqual := r =? 0 in
    if xEqual && yEqual then doubleJacobian x1 y1 z1
    else
      let r := 2 * r in
      let v := u1 * i in
      let x3 := (r * r - j - 2 * v) mod P in
      let y3 := (r * (v - x3) - 2 * s1 * j) mod P in
      let z3 := (((z1 + z2) * (z1 + z2) - z1z1 - z2z2) * h) mod P in
      (x3, y3, z3).

Definition affineFromJacobian (x y z : bigZ) : bigZ * bigZ :=
  if z =? 0 then (0, 0)
  else
    let zinv := ModInverse z in
    let zinvsq := zinv * zinv in
    ((x * zinvsq) mod P, (y * (zinvsq * zinv)) mod P).

(** The eight bits of one byte of the scalar, most significant first. *)
Fixpoint scalar_bits (n : nat) (b : Z) (Bx By : bigZ) (acc : bigZ * bigZ * bigZ)
    : bigZ * bigZ * bigZ :=
  match n with
  | O => acc
  | S n' =>
      let '(x, y, z) := acc in
      let '(x, y, z) := doubleJacobian x y z in
      let acc := if Z.testbit b 7 then addJacobian Bx By 1 x y z else (x, y, z) in
      scalar_bits n' (Z.shiftl b 1 mod 256)%Z Bx By acc
  end.

Definition CurveParams_ScalarMult (Bx By : Z) (k : list byte) : Z * Z :=
  let Bx := BigZ.of_Z Bx in
  let By := BigZ.of_Z By in
  let '(x, y, z) :=
    fold_left (fun acc b => scalar_bits 8 (Z_of_byte b) Bx By acc) k (0, 0, 0) in
  let '(x, y) := affineFromJacobian x y z in
  (BigZ.to_Z x, BigZ.to_Z y).

End Params.

Definition p256_P : bigZ :=
  115792089210356248762697446949407573530086143415290314195533631308867097853951.

(** [elliptic.P256()] *)
Definition P256 : Curve := {| ScalarMult := CurveParams_ScalarMult p256_P |}.

End elliptic.

(** [encoding/base64]: [RawURLEncoding.DecodeString]. *)
Module base64.

Definition encodeURL : string :=
  "ABCDEFGHIJKLMNOPQRSTUVWXYZabcdefghijklmnopqrstuvwxyz0123456789-_".

Fixpoint index_from (i : Z) (alphabet : string) (c : ascii) : option Z :=
  match alphabet with
  | EmptyString => None
  | String a rest => if Ascii.eqb a c then Some i else index_from (i + 1) rest c
  end.

Fixpoint sextets (s : string) : option (list Z) :=
  match s with
  | EmptyString => Some []
  | String c rest =>
      match index_from 0 encodeURL c, sextets rest with
      | Some v, Some vs => Some (v :: vs)
      | _, _ => None
      end
  end.

(** Four characters give three bytes; a final group of two or three
    characters gives one or two bytes. *)
Fixpoint quanta (fuel : nat) (vs : list Z) : option (list byte) :=
  match fuel with
  | O => None
  | S fuel' =>
      match vs with
      | [] => Some []
      | [_] => None
      | [a; b] => Some [byte_of_Z (Z.lor (Z.shiftl a 2) (Z.shiftr b 4))]
      | [a; b; c] =>
          Some [byte_of_Z (Z.lor (Z.shiftl a 2) (Z.shiftr b 4));
                byte_of_Z (Z.lor (Z.shiftl b 4) (Z.shiftr c 2))]
      | a :: b :: c :: d :: rest =>
          match quanta fuel' rest with
          | Some bs =>
              Some (byte_of_Z (Z.lor (Z.shiftl a 2) (Z.shiftr b 4))
                    :: byte_of_Z (Z.lor (Z.shiftl b 4) (Z.shiftr c 2))
                    :: byte_of_Z (Z.lor (Z.shiftl c 6) d) :: bs)
          | None => None
          end
      end
  end.

Definition DecodeString (s : string) : option (list byte) :=
  match sextets s with
  | Some vs => quanta (S (length vs)) vs
  | None => None
  end.

End base64.

(** ** The fixtures of the package's test (api.go) *)

Module Fixtures.

(** [mustBase64UrlDecode]; the panic on a malformed input is not modelled. *)
Definition mustBase64UrlDecode (input : string) : list byte :=
  match base64.DecodeString input with
  | Some out => out
  | None => []
  end.

(** An EC key in JWK form with curve P-256 and coordinates [x], [y], [d]. *)
Definition mustJWK (x y d : string) : PrivateKey :=
  {| Public := {| PubCurve := elliptic.P256;
                  X := be_decode (mustBase64UrlDecode x);
                  Y := be_decode (mustBase64UrlDecode y) |};
     D := be_decode (mustBase64UrlDecode d) |}.

Definition aliceStaticJWK : PrivateKey :=
  mustJWK "WKn-ZIGevcwGIyyrzFoZNBdaq9_TsqzGl96oc0CWuis"
          "y77t-RvAHRKTsSGdIYUfweuOvwrvDD-Q3Hv5J0fSKbE"
          "Hndv7ZZjs_ke8o9zXYo3iq-Yr8SewI5vrqd0pAvEPqg".

Definition aliceEphemeralJWK : PrivateKey :=
  mustJWK "gI0GAILBdu7T53akrFmMyGcsF3n5dO7MmwNBHKW5SV0"
          "SLW_xSffzlPWrHEVI30DHM_4egVwt3NQqeUD7nMFpps"
          "0_NxaRPUMQoAJt50Gz8YiTr8gRTwyEaCumd-MToTmIo".

Definition bobStaticJWK : PrivateKey :=
  mustJWK "weNJy2HscCSM6AEDTDg04biOvhFhyyWvOHQfeF_PxMQ"
          "e8lnCO-AlStT-NJVX-crhB7QRYhiix03illJOVAOyck"
          "VEmDZpDXXK8p8N0Cndsxs924q6nS1RXFASRl6BfUqdw".

(** [[]byte("...")] *)
Definition bytes (s : string) : list byte := list_byte_of_string s.

(** A hash object that claims a digest of no bytes at all. *)
Definition emptyHash : Hash unit := {|
  Write := fun s _ => s;
  Sum := fun _ b => b;
  Reset := fun s => s;
  Size := fun _ => 0
|}.

End Fixtures.

(** * Properties *)

(** ** Bytes and big-endian encodings *)

Module BytesFacts.

Lemma Z_of_byte_range b : 0 <= Z_of_byte b < 256.
Proof.
  unfold Z_of_byte. pose proof (Byte.to_N_bounded b). lia.
Qed.

Lemma Z_of_byte_of_Z v : Z_of_byte (byte_of_Z v) = v mod 256.
Proof.
  unfold Z_of_byte, byte_of_Z.
  pose proof (Z.mod_pos_bound v 256 ltac:(lia)) as Hb.
  destruct (Byte.of_N (Z.to_N (v mod 256))) as [b|] eqn:E.
  - apply Byte.to_of_N in E. rewrite E. lia.
  - apply Byte.of_N_None_iff in E. lia.
Qed.

Lemma byte_of_Z_of_byte b : byte_of_Z (Z_of_byte b) = b.
Proof.
  unfold byte_of_Z. pose proof (Z_of_byte_range b).
  rewrite Z.mod_small by assumption.
  unfold Z_of_byte. rewrite N2Z.id, Byte.of_to_N. reflexivity.
Qed.

Lemma byte_of_Z_mod v : byte_of_Z (v mod 256) = byte_of_Z v.
Proof. unfold byte_of_Z. rewrite Z.mod_mod by lia. reflexivity. Qed.

Lemma len_app {A} (a b : list A) : len (a ++ b) = len a + len b.
Proof. unfold len. rewrite length_app. lia. Qed.

Lemma len_nonneg {A} (a : list A) : 0 <= len a.
Proof. unfold len. lia. Qed.

Lemma be_decode_from acc bs :
  fold_left (fun acc b => acc * 256 + Z_of_byte b) bs acc
  = acc * 256 ^ len bs + be_decode bs.
Proof.
  unfold be_decode. revert acc.
  induction bs as [|b bs IH]; intros acc; cbn [fold_left].
  - unfold len. simpl. lia.
  - rewrite IH, (IH (0 * 256 + Z_of_byte b)).
    unfold len. cbn [length]. rewrite Nat2Z.inj_succ, Z.pow_succ_r by lia. ring.
Qed.

Lemma be_decode_app a b : be_decode (a ++ b) = be_decode a * 256 ^ len b + be_decode b.
Proof.
  unfold be_decode at 1. rewrite fold_left_app. apply be_decode_from.
Qed.

Lemma be_decode_cons b bs : be_decode (b :: bs) = Z_of_byte b * 256 ^ len bs + be_decode bs.
Proof. apply (be_decode_app [b] bs). Qed.

Lemma be_decode_range bs : 0 <= be_decode bs < 256 ^ len bs.
Proof.
  induction bs as [|b bs IH].
  - unfold be_decode, len. simpl. lia.
  - rewrite be_decode_cons. pose proof (Z_of_byte_range b).
    unfold len in *. cbn [length]. rewrite Nat2Z.inj_succ, Z.pow_succ_r by lia. nia.
Qed.

(** The four bytes of [PutUint32] denote the low 32 bits of the value. *)
Lemma be_decode_PutUint32 v : be_decode (PutUint32 v) = v mod 2 ^ 32.
Proof.
  unfold PutUint32, be_decode. cbn [fold_left].
  rewrite !Z_of_byte_of_Z, !Z.shiftr_div_pow2 by lia.
  change (2 ^ 32) with 4294967296. change (2 ^ 24) with 16777216.
  change (2 ^ 16) with 65536. change (2 ^ 8) with 256.
  Z.div_mod_to_equations. lia.
Qed.

(** [PutUint32] after the conversion [uint32] writes the four low
    base-256 digits, whatever the size of the number. *)
Lemma PutUint32_uint32 n : PutUint32 (uint32 n) = Spec.BigEndian32 n.
Proof.
  unfold PutUint32, uint32, Spec.BigEndian32.
  rewrite !Z.shiftr_div_pow2 by lia.
  rewrite <- (byte_of_Z_mod (n mod _ / 2 ^ 24)), <- (byte_of_Z_mod (n mod _ / 2 ^ 16)),
    <- (byte_of_Z_mod (n mod _ / 2 ^ 8)), <- (byte_of_Z_mod (n mod 2 ^ 32)).
  rewrite <- (byte_of_Z_mod (n / 256 ^ 3)), <- (byte_of_Z_mod (n / 256 ^ 2)),
    <- (byte_of_Z_mod (n / 256)), <- (byte_of_Z_mod n).
  change (2 ^ 32) with 4294967296. change (2 ^ 24) with 16777216.
  change (2 ^ 16) with 65536. change (2 ^ 8) with 256.
  change (256 ^ 3) with 16777216. change (256 ^ 2) with 65536.
  assert (E3 : (n mod 4294967296 / 16777216) mod 256 = (n / 16777216) mod 256)
    by (Z.div_mod_to_equations; lia).
  assert (E2 : (n mod 4294967296 / 65536) mod 256 = (n / 65536) mod 256)
    by (Z.div_mod_to_equations; lia).
  assert (E1 : (n mod 4294967296 / 256) mod 256 = (n / 256) mod 256)
    by (Z.div_mod_to_equations; lia).
  assert (E0 : (n mod 4294967296) mod 256 = n mod 256)
    by (Z.div_mod_to_equations; lia).
  rewrite E3, E2, E1, E0. reflexivity.
Qed.

Lemma pow256_pos k : 0 <= k -> 0 < 256 ^ k.
Proof. intros. apply Z.pow_pos_nonneg; lia. Qed.

(** The digits produced for [v], given enough fuel: they denote [v], and
    there is no digit at all for zero, so the first digit is not zero. *)
Lemma be_digits_spec fuel : forall v acc, 0 <= v < 256 ^ Z.of_nat fuel ->
  exists ds, be_digits fuel v acc = ds ++ acc
    /\ be_decode ds = v
    /\ (0 < v -> 256 ^ (len ds - 1) <= v)
    /\ (v = 0 -> ds = []).
Proof.
  induction fuel as [|fuel IH]; intros v acc Hv.
  - exists []. cbn [be_digits]. change (256 ^ Z.of_nat 0) with 1 in Hv.
    change (be_decode []) with 0.
    repeat split; try reflexivity; try lia.
  - cbn [be_digits]. destruct (v =? 0) eqn:E0.
    + apply Z.eqb_eq in E0. exists []. change (be_decode []) with 0.
      repeat split; try reflexivity; try lia.
    + apply Z.eqb_neq in E0.
      rewrite Nat2Z.inj_succ, Z.pow_succ_r in Hv by lia.
      destruct (IH (v / 256) (byte_of_Z v :: acc)) as (ds & Hds & Hdec & Hlo & Hz).
      { split; [apply Z.div_pos; lia | apply Z.div_lt_upper_bound; lia]. }
      exists (ds ++ [byte_of_Z v]). split; [|split; [|split]].
      * rewrite Hds, <- app_assoc. reflexivity.
      * rewrite be_decode_app, Hdec. unfold len. cbn [length].
        change (be_decode [byte_of_Z v]) with (0 * 256 + Z_of_byte (byte_of_Z v)).
        rewrite Z_of_byte_of_Z. change (256 ^ Z.of_nat 1) with 256.
        Z.div_mod_to_equations. lia.
      * intros _. rewrite len_app. change (len [byte_of_Z v]) with 1.
        replace (len ds + 1 - 1) with (len ds) by lia.
        destruct (Z.eq_dec (v / 256) 0) as [Hq|Hq].
        -- rewrite (Hz Hq). change (256 ^ len []) with 1. lia.
        -- assert (Hqpos : 0 < v / 256) by (pose proof (Z.div_pos v 256); lia).
           specialize (Hlo Hqpos).
           assert (0 < len ds).
           { destruct ds; [|unfold len; cbn [length]; lia].
             unfold be_decode in Hdec. simpl in Hdec. lia. }
           replace (len ds) with (Z.succ (len ds - 1)) by lia.
           rewrite Z.pow_succ_r by lia. Z.div_mod_to_equations. lia.
      * intros ->. contradiction.
Qed.

Lemma BigIntBytes_fuel x : 0 <= Z.abs x < 256 ^ Z.of_nat (S (Z.to_nat (Z.log2 (Z.abs x)))).
Proof.
  split; [lia|].
  pose proof (Z.log2_nonneg (Z.abs x)) as Hl.
  rewrite Nat2Z.inj_succ, Z2Nat.id by assumption.
  destruct (Z.eq_dec (Z.abs x) 0) as [->|Hne].
  - change (Z.log2 0) with 0. reflexivity.
  - pose proof (Z.log2_spec (Z.abs x) ltac:(lia)) as [_ Hhi].
    eapply Z.lt_le_trans; [exact Hhi|].
    apply Z.pow_le_mono_l. lia.
Qed.

(** [Bytes] is a big-endian encoding of the absolute value. *)
Lemma BigIntBytes_decode x : be_decode (BigIntBytes x) = Z.abs x.
Proof.
  unfold BigIntBytes.
  destruct (be_digits_spec _ _ [] (BigIntBytes_fuel x)) as (ds & -> & Hdec & _).
  now rewrite app_nil_r.
Qed.

(** [Bytes] has no leading zero: no encoding of the value is shorter. *)
Lemma BigIntBytes_minimal x bs :
  be_decode bs = Z.abs x -> (length (BigIntBytes x) <= length bs)%nat.
Proof.
  intros Hbs. unfold BigIntBytes.
  destruct (be_digits_spec _ _ [] (BigIntBytes_fuel x)) as (ds & -> & Hdec & Hlo & Hz).
  rewrite app_nil_r.
  destruct (Z.eq_dec (Z.abs x) 0) as [H0|Hne].
  - rewrite (Hz H0). cbn [length]. lia.
  - specialize (Hlo ltac:(lia)).
    pose proof (be_decode_range bs) as Hr. rewrite Hbs in Hr.
    destruct (Nat.le_gt_cases (length ds) (length bs)) as [|Hgt]; trivial.
    exfalso.
    assert (256 ^ len bs <= 256 ^ (len ds - 1)) by (apply Z.pow_le_mono_r; unfold len; lia).
    lia.
Qed.

End BytesFacts.

(** ** binary64 arithmetic

    The division of an integer below [2^32] by a positive [int], rounded
    to nearest even and then rounded up by [math.Ceil], is the ceiling of
    the exact quotient. *)

Module Float64Facts.
Import Float64.

Lemma digits2_pos_size p : digits2_pos p = Pos.size p.
Proof. induction p; simpl; congruence. Qed.

Lemma Zdigits2_log2 z : 0 < z -> Zdigits2 z = Z.log2 z + 1.
Proof.
  destruct z as [|p|p]; try lia. intros _. simpl.
  rewrite digits2_pos_size. destruct p; simpl; lia.
Qed.

Lemma Zdigits2_bounds z : 0 < z -> 2 ^ (Zdigits2 z - 1) <= z < 2 ^ Zdigits2 z.
Proof.
  intros Hz. rewrite (Zdigits2_log2 z Hz).
  replace (Z.log2 z + 1 - 1) with (Z.log2 z) by lia.
  apply (Z.log2_spec z Hz).
Qed.

Lemma Zdigits2_unique z d : 2 ^ (d - 1) <= z < 2 ^ d -> 0 < d -> Zdigits2 z = d.
Proof.
  intros Hb Hd.
  assert (0 < z) by (pose proof (Z.pow_pos_nonneg 2 (d - 1)); lia).
  rewrite Zdigits2_log2 by assumption.
  rewrite (Z.log2_unique z (d - 1)); try lia.
  replace (Z.succ (d - 1)) with d by lia. exact Hb.
Qed.

Lemma iter_pos_nat {A} (f : A -> A) p x :
  iter_pos f p x = Nat.iter (Pos.to_nat p) f x.
Proof.
  revert x. induction p as [p IH|p IH|]; intros x; cbn [iter_pos].
  - rewrite !IH, Pos2Nat.inj_xI, <- Nat.iter_add.
    replace (2 * Pos.to_nat p)%nat with (Pos.to_nat p + Pos.to_nat p)%nat by lia.
    rewrite Nat.iter_succ_r. reflexivity.
  - rewrite !IH, Pos2Nat.inj_xO, <- Nat.iter_add. f_equal. lia.
  - reflexivity.
Qed.

Lemma shr_1_m mrs : 0 <= shr_m mrs -> shr_m (shr_1 mrs) = shr_m mrs / 2.
Proof.
  destruct mrs as [m r s]. cbn [shr_m]. intros Hm.
  destruct m as [|[p|p|]|p]; cbn [shr_1 shr_m]; try lia.
  - reflexivity.
  - rewrite Pos2Z.inj_xI. apply (Z.div_unique _ 2 _ 1); lia.
  - rewrite Pos2Z.inj_xO. apply (Z.div_unique _ 2 _ 0); lia.
  - reflexivity.
Qed.

Lemma shr_1_exact mrs :
  0 <= shr_m mrs -> shr_m mrs mod 2 = 0 ->
  loc_of_shr_record mrs = loc_Exact ->
  loc_of_shr_record (shr_1 mrs) = loc_Exact.
Proof.
  destruct mrs as [m [|] [|]]; cbn [loc_of_shr_record shr_m]; try discriminate.
  intros Hm Hev _.
  destruct m as [|[p|p|]|p]; cbn [shr_1 orb loc_of_shr_record]; try reflexivity; try lia.
  - rewrite Pos2Z.inj_xI in Hev.
    rewrite Z.add_comm, Z.mul_comm, Z.mod_add in Hev by lia. discriminate.
  - discriminate.
Qed.

Lemma shr_iter_m k : forall mrs, 0 <= shr_m mrs ->
  shr_m (Nat.iter k shr_1 mrs) = shr_m mrs / 2 ^ Z.of_nat k.
Proof.
  induction k as [|k IH]; intros mrs Hm.
  - simpl. now rewrite Z.div_1_r.
  - rewrite Nat.iter_succ, shr_1_m.
    + rewrite IH by assumption.
      rewrite Nat2Z.inj_succ, Z.pow_succ_r by lia.
      rewrite Z.div_div by lia. f_equal. lia.
    + rewrite IH by assumption. apply Z.div_pos; lia.
Qed.

Lemma shr_iter_exact k : forall mrs, 0 <= shr_m mrs ->
  shr_m mrs mod 2 ^ Z.of_nat k = 0 ->
  loc_of_shr_record mrs = loc_Exact ->
  loc_of_shr_record (Nat.iter k shr_1 mrs) = loc_Exact.
Proof.
  induction k as [|k IH]; intros mrs Hm Hdiv Hex.
  - exact Hex.
  - rewrite Nat2Z.inj_succ, Z.pow_succ_r in Hdiv by lia.
    assert (Hp : 0 < 2 ^ Z.of_nat k) by (apply Z.pow_pos_nonneg; lia).
    apply Z.mod_divide in Hdiv; [|lia]. destruct Hdiv as [c Hc].
    rewrite Nat.iter_succ. apply shr_1_exact.
    + rewrite shr_iter_m by assumption. apply Z.div_pos; lia.
    + rewrite shr_iter_m by assumption. rewrite Hc.
      replace (c * (2 * 2 ^ Z.of_nat k)) with (c * 2 * 2 ^ Z.of_nat k) by ring.
      rewrite Z.div_mul by lia. apply Z.mod_mul. lia.
    + apply IH; try assumption. rewrite Hc.
      replace (c * (2 * 2 ^ Z.of_nat k)) with (c * 2 * 2 ^ Z.of_nat k) by ring.
      apply Z.mod_mul. lia.
Qed.

Lemma shr_spec m l e n : 0 <= m -> 0 <= n ->
  exists mrs, shr (shr_record_of_loc m l) e n = (mrs, e + n)
    /\ shr_m mrs = m / 2 ^ n
    /\ (l = loc_Exact -> m mod 2 ^ n = 0 -> loc_of_shr_record mrs = loc_Exact).
Proof.
  intros Hm Hn.
  assert (Hrec : shr_m (shr_record_of_loc m l) = m) by (destruct l as [|[| |]]; reflexivity).
  destruct n as [|p|p]; try lia.
  - exists (shr_record_of_loc m l). simpl. rewrite Z.add_0_r, Z.div_1_r.
    repeat split; trivial. intros -> _. reflexivity.
  - exists (iter_pos shr_1 p (shr_record_of_loc m l)). simpl shr.
    rewrite iter_pos_nat. split; [reflexivity|]. split.
    + rewrite shr_iter_m by lia. rewrite Hrec, positive_nat_Z. reflexivity.
    + intros -> Hdiv. apply shr_iter_exact.
      * simpl; lia.
      * rewrite positive_nat_Z. exact Hdiv.
      * reflexivity.
Qed.

Lemma rne_bounds m l :
  m <= round_nearest_even m l <= m + 1 /\ (l = loc_Exact -> round_nearest_even m l = m).
Proof.
  split.
  - destruct l as [|[| |]]; cbn [round_nearest_even]; try lia.
    destruct (Z.even m); lia.
  - intros ->. reflexivity.
Qed.

Lemma binary_round_aux_normal s mx ex lx :
  let d := Zdigits2 (Z.pos mx) in
  prec <= d -> emin prec emax <= d + ex - prec -> d + ex < emax ->
  exists m2 m3 e3,
    binary_round_aux prec emax s (Z.pos mx) ex lx = S754_finite s m3 e3
    /\ Z.pos mx / 2 ^ (d - prec) <= m2 <= Z.pos mx / 2 ^ (d - prec) + 1
    /\ (lx = loc_Exact -> Z.pos mx mod 2 ^ (d - prec) = 0 ->
        m2 = Z.pos mx / 2 ^ (d - prec))
    /\ 2 ^ (prec - 1) <= Z.pos m3 < 2 ^ prec
    /\ ((e3 = ex + (d - prec) /\ Z.pos m3 = m2) \/
        (e3 = ex + (d - prec) + 1 /\ m2 = 2 ^ prec /\ Z.pos m3 = 2 ^ (prec - 1))).
Proof.
  intros d Hd Hmin Hmax.
  unfold binary_round_aux, shr_fexp.
  fold d.
  assert (Hf1 : fexp prec emax (d + ex) - ex = d - prec) by (unfold fexp; lia).
  rewrite Hf1.
  destruct (shr_spec (Z.pos mx) lx ex (d - prec)) as (mrs1 & E1 & M1 & X1); try lia.
  rewrite E1.
  set (n := d - prec) in *.
  set (m1 := Z.pos mx / 2 ^ n) in *.
  assert (Hpn : 0 < 2 ^ n) by (apply Z.pow_pos_nonneg; lia).
  assert (Hm1 : 2 ^ (prec - 1) <= m1 < 2 ^ prec).
  { pose proof (Zdigits2_bounds (Z.pos mx) eq_refl) as Hb. fold d in Hb.
    assert (E1' : 2 ^ (d - 1) = 2 ^ (prec - 1) * 2 ^ n)
      by (rewrite <- Z.pow_add_r by (unfold prec; lia); f_equal; lia).
    assert (E2' : 2 ^ d = 2 ^ prec * 2 ^ n)
      by (rewrite <- Z.pow_add_r by (unfold prec; lia); f_equal; lia).
    rewrite E1', E2' in Hb.
    split.
    - apply Z.div_le_lower_bound; lia.
    - apply Z.div_lt_upper_bound; lia. }
  destruct (rne_bounds (shr_m mrs1) (loc_of_shr_record mrs1)) as [Hr1 Hr2].
  set (m2 := round_nearest_even (shr_m mrs1) (loc_of_shr_record mrs1)) in *.
  rewrite M1 in Hr1, Hr2.
  exists m2.
  assert (Hp52 : 0 < 2 ^ (prec - 1)) by (apply Z.pow_pos_nonneg; unfold prec; lia).
  assert (Hcase : m2 < 2 ^ prec \/ m2 = 2 ^ prec) by lia.
  destruct Hcase as [Hlt | Heq].
  - assert (Hd2 : Zdigits2 m2 = prec) by (apply Zdigits2_unique; unfold prec in *; lia).
    rewrite Hd2.
    assert (Hf2 : fexp prec emax (prec + (ex + n)) - (ex + n) = 0) by (unfold fexp; lia).
    rewrite Hf2. cbn [shr shr_record_of_loc shr_m].
    destruct m2 as [|m|m]; try lia.
    exists m, (ex + n).
    replace (ex + n <=? emax - prec) with true by (symmetry; apply Z.leb_le; lia).
    split; [reflexivity|]. split; [lia|]. split.
    { intros Hl Hdiv. apply Hr2. now apply X1. }
    split; [lia|]. left. split; reflexivity.
  - assert (Hd2 : Zdigits2 m2 = prec + 1).
    { apply Zdigits2_unique; [|unfold prec; lia].
      rewrite Heq. replace (prec + 1 - 1) with prec by lia.
      rewrite (Z.pow_add_r 2 prec 1) by (unfold prec; lia). lia. }
    rewrite Hd2.
    assert (Hf2 : fexp prec emax (prec + 1 + (ex + n)) - (ex + n) = 1) by (unfold fexp; lia).
    rewrite Hf2.
    destruct (shr_spec m2 loc_Exact (ex + n) 1) as (mrs2 & E2 & M2 & _); try lia.
    rewrite E2, M2, Heq.
    replace (2 ^ prec / 2 ^ 1) with (2 ^ (prec - 1)).
    2:{ replace prec with (prec - 1 + 1) at 2 by lia.
        rewrite Z.pow_add_r by (unfold prec; lia). rewrite Z.div_mul; lia. }
    destruct (2 ^ (prec - 1)) as [|m|m] eqn:E52; try lia.
    exists m, (ex + n + 1).
    replace (ex + n + 1 <=? emax - prec) with true by (symmetry; apply Z.leb_le; lia).
    split; [reflexivity|]. split; [lia|]. split.
    { intros Hl Hdiv. rewrite <- Heq. apply Hr2. now apply X1. }
    split.
    { rewrite <- E52. split; [lia|]. apply Z.pow_lt_mono_r; unfold prec; lia. }
    right. repeat split; lia.
Qed.

Lemma iter_xO_pow p k : Z.pos (Pos.iter xO p k) = Z.pos p * 2 ^ Z.pos k.
Proof.
  induction k as [|k IH] using Pos.peano_ind.
  - cbn [Pos.iter]. rewrite Pos2Z.inj_xO. lia.
  - rewrite Pos.iter_succ, Pos2Z.inj_xO, IH, Pos2Z.inj_succ, Z.pow_succ_r by lia. ring.
Qed.

Lemma Zdigits2_le z b : 0 < z < 2 ^ b -> 0 <= b -> Zdigits2 z <= b.
Proof.
  intros [Hz Hlt] Hb.
  destruct (Z.le_gt_cases (Zdigits2 z) b) as [|Hgt]; trivial.
  pose proof (Zdigits2_bounds z Hz) as [Hlo _].
  assert (2 ^ b <= 2 ^ (Zdigits2 z - 1)) by (apply Z.pow_le_mono_r; lia).
  lia.
Qed.

Lemma Zdigits2_ge z b : 2 ^ b <= z -> 0 <= b -> b < Zdigits2 z.
Proof.
  intros Hle Hb.
  assert (Hz : 0 < z) by (pose proof (Z.pow_pos_nonneg 2 b); lia).
  destruct (Z.lt_ge_cases b (Zdigits2 z)) as [|Hge]; trivial.
  pose proof (Zdigits2_bounds z Hz) as [_ Hhi].
  assert (2 ^ Zdigits2 z <= 2 ^ b).
  { apply Z.pow_le_mono_r; try lia. }
  lia.
Qed.

Lemma Zdigits2_pos z : 0 < z -> 0 < Zdigits2 z.
Proof. destruct z; try lia. intros _. reflexivity. Qed.

(** A positive integer below [2^53] converts exactly. *)
Lemma of_int_small z : 0 < z < 2 ^ prec ->
  exists m, binary_normalize prec emax z 0 false = S754_finite false m (Zdigits2 z - prec)
    /\ Z.pos m = z * 2 ^ (prec - Zdigits2 z)
    /\ 2 ^ (prec - 1) <= Z.pos m < 2 ^ prec.
Proof.
  intros Hz.
  pose proof (Zdigits2_le z prec Hz ltac:(unfold prec; lia)) as Hd.
  pose proof (Zdigits2_bounds z ltac:(lia)) as Hb.
  destruct z as [|p|p]; try lia.
  cbn [binary_normalize]. unfold binary_round.
  change (Z.pos (digits2_pos p)) with (Zdigits2 (Z.pos p)).
  set (d := Zdigits2 (Z.pos p)) in *.
  assert (Hdpos : 0 < d) by (apply Zdigits2_pos; lia).
  assert (Hf : fexp prec emax (d + 0) = d - prec) by (unfold fexp, emin, emax, prec in *; lia).
  rewrite Hf.
  assert (Hsh : exists mz, shl_align p 0 (d - prec) = (mz, d - prec)
                 /\ Z.pos mz = Z.pos p * 2 ^ (prec - d)).
  { unfold shl_align. destruct (d - prec - 0) as [|k|k] eqn:Ek; try lia.
    - exists p. replace (d - prec) with 0 by lia. split; [reflexivity|].
      replace (prec - d) with 0 by lia. lia.
    - exists (Pos.iter xO p k). split; [reflexivity|].
      rewrite iter_xO_pow. f_equal. f_equal. lia. }
  destruct Hsh as (mz & -> & Hmz).
  assert (Hdz : Zdigits2 (Z.pos mz) = prec).
  { apply Zdigits2_unique; [|unfold prec; lia]. rewrite Hmz.
    assert (E1 : 2 ^ (prec - 1) = 2 ^ (d - 1) * 2 ^ (prec - d))
      by (rewrite <- Z.pow_add_r by lia; f_equal; lia).
    assert (E2 : 2 ^ prec = 2 ^ d * 2 ^ (prec - d))
      by (rewrite <- Z.pow_add_r by lia; f_equal; lia).
    assert (0 < 2 ^ (prec - d)) by (apply Z.pow_pos_nonneg; lia).
    rewrite E1, E2. split; [apply Z.mul_le_mono_nonneg_r | apply Z.mul_lt_mono_pos_r]; lia. }
  pose proof (binary_round_aux_normal false mz (d - prec) loc_Exact) as HB.
  cbv zeta in HB. rewrite Hdz, Z.sub_diag, Z.pow_0_r, Z.div_1_r in HB.
  destruct HB as (m2 & m3 & e3 & Hr & Hm2 & Hex & Hm3 & Hcase);
    try (unfold emin, emax, prec in *; lia).
  specialize (Hex eq_refl (Z.mod_1_r _)).
  exists m3. rewrite Hr.
  destruct Hcase as [[-> Hm] | [_ [Hm _]]].
  - split; [f_equal; lia|]. split; [lia|]. exact Hm3.
  - exfalso. pose proof (Zdigits2_bounds (Z.pos mz) eq_refl) as Hbz.
    rewrite Hdz in Hbz. lia.
Qed.

(** An integer in [[2^53, 2^63)] converts to a value that is at least [2^53]. *)
Lemma of_int_large z : 2 ^ prec <= z < 2 ^ 63 ->
  exists m e, binary_normalize prec emax z 0 false = S754_finite false m e
    /\ 2 ^ (prec - 1) <= Z.pos m < 2 ^ prec /\ 1 <= e <= 11.
Proof.
  intros Hz.
  pose proof (Zdigits2_le z 63 ltac:(unfold prec in *; lia) ltac:(lia)) as Hd.
  pose proof (Zdigits2_ge z prec ltac:(lia) ltac:(unfold prec; lia)) as Hd'.
  destruct z as [|p|p]; try (unfold prec in *; lia).
  cbn [binary_normalize]. unfold binary_round.
  change (Z.pos (digits2_pos p)) with (Zdigits2 (Z.pos p)).
  set (d := Zdigits2 (Z.pos p)) in *.
  assert (Hf : fexp prec emax (d + 0) = d - prec) by (unfold fexp, emin, emax, prec in *; lia).
  rewrite Hf. unfold shl_align.
  destruct (d - prec - 0) as [|k|k] eqn:Ek; try lia.
  pose proof (binary_round_aux_normal false p 0 loc_Exact) as HB.
  cbv zeta in HB. fold d in HB.
  destruct HB as (m2 & m3 & e3 & Hr & Hm2 & Hex & Hm3 & Hcase);
    try (unfold emin, emax, prec in *; lia).
  exists m3, e3. rewrite Hr. split; [reflexivity|]. split; [lia|].
  unfold prec in *. lia.
Qed.

Lemma cdiv_unique a b c : 0 < b -> (c - 1) * b < a <= c * b -> - ((- a) / b) = c.
Proof.
  intros Hb H.
  assert (E : - c = (- a) / b) by (apply (Z.div_unique _ _ _ (c * b - a)); lia).
  lia.
Qed.

Lemma ceil_div_unique a b c : 0 < b -> (c - 1) * b < a <= c * b -> (a + b - 1) / b = c.
Proof.
  intros Hb H. symmetry. apply (Z.div_unique _ _ _ (a + b - 1 - b * c)); lia.
Qed.

Lemma scaled_div_le a p b : 0 < a -> 0 < p -> p < b -> a * p / b <= a.
Proof.
  intros Ha Hp Hb. apply Z.div_le_upper_bound; [lia|].
  rewrite (Z.mul_comm b a). apply Z.mul_le_mono_nonneg_l; lia.
Qed.

(** The ceiling of a quotient survives a rounding of the scaled quotient to
    a neighbour, provided exact quotients are kept. *)
Lemma ceil_after_rounding A B P m2 :
  0 < A -> 0 < B -> 0 < P -> B <= P ->
  A * P / B <= m2 <= A * P / B + 1 ->
  (A mod B = 0 -> m2 = A * P / B) ->
  - (- m2 / P) = (A + B - 1) / B.
Proof.
  intros HA HB HP HBP Hm2 Hexact.
  pose proof (Z.div_mod A B ltac:(lia)) as HAB.
  pose proof (Z.mod_pos_bound A B HB) as Hrho.
  set (k := A / B) in *. set (rho := A mod B) in *.
  assert (HAP : A * P / B = k * P + rho * P / B).
  { rewrite HAB at 1. replace ((B * k + rho) * P) with (k * P * B + rho * P) by ring.
    rewrite Z.div_add_l by lia. reflexivity. }
  rewrite HAP in Hm2, Hexact.
  destruct (Z.eq_dec rho 0) as [H0 | Hne].
  - specialize (Hexact H0). rewrite H0 in *.
    rewrite Z.mul_0_l, Z.div_0_l, Z.add_0_r in Hexact by lia.
    rewrite Hexact, (ceil_div_unique A B k) by lia.
    apply cdiv_unique; lia.
  - assert (H1 : 1 <= rho * P / B).
    { apply Z.div_le_lower_bound; [lia|].
      transitivity (1 * P); [lia|]. apply Z.mul_le_mono_nonneg_r; lia. }
    assert (H2 : rho * P / B < P).
    { apply Z.div_lt_upper_bound; [lia|]. apply Z.mul_lt_mono_pos_r; lia. }
    rewrite (ceil_div_unique A B (k + 1)) by lia.
    apply cdiv_unique; lia.
Qed.

Lemma new_location_exact nb : new_location nb 0 = loc_Exact.
Proof. unfold new_location. destruct (Z.even nb); reflexivity. Qed.

Lemma SFdiv_ceil mx ex my ey A B :
  2 ^ 52 <= Z.pos mx < 2 ^ 53 -> 2 ^ 52 <= Z.pos my < 2 ^ 53 ->
  0 < A < 2 ^ 32 -> 0 < B ->
  -52 <= ex <= -21 -> Z.pos mx = A * 2 ^ (- ex) ->
  -52 <= ey <= 11 ->
  (ey <= 0 /\ Z.pos my = B * 2 ^ (- ey)) \/ (0 < ey /\ B = Z.pos my * 2 ^ ey) ->
  exists m3 e3,
    SFdiv prec emax (S754_finite false mx ex) (S754_finite false my ey)
      = S754_finite false m3 e3
    /\ e3 < 0 /\ - ((- Z.pos m3) / 2 ^ (- e3)) = (A + B - 1) / B.
Proof.
  intros Hmx Hmy HA HB Hex Hvx Hey Hvy.
  cbn [SFdiv xorb]. unfold SFdiv_core_binary.
  rewrite (Zdigits2_unique (Z.pos mx) 53), (Zdigits2_unique (Z.pos my) 53) by (simpl; lia).
  set (E := ex - ey - 53).
  replace (Z.min (fexp prec emax (53 + ex - (53 + ey))) (ex - ey)) with E
    by (unfold fexp, emin, emax, prec, E; lia).
  replace (ex - ey - E) with 53 by (unfold E; lia).
  cbv zeta iota beta. rewrite Z.shiftl_mul_pow2 by lia.
  set (M := Z.pos mx * 2 ^ 53).
  pose proof (Z.div_eucl_eq M (Z.pos my) ltac:(lia)) as Hdm.
  pose proof (Z.mod_pos_bound M (Z.pos my) ltac:(lia)) as Hrb.
  unfold Z.modulo in Hrb.
  destruct (Z.div_eucl M (Z.pos my)) as [q r] eqn:Hqr.
  assert (Hq : q = M / Z.pos my) by (unfold Z.div; now rewrite Hqr).
  assert (Hr : r = M mod Z.pos my) by (unfold Z.modulo; now rewrite Hqr).
  (* the quotient in terms of A and B *)
  set (T := A * 2 ^ (- E)).
  assert (HT : q = T / B /\ (T mod B = 0 -> r = 0)).
  { destruct Hvy as [[Hey0 Hy] | [Hey0 Hy]].
    - assert (HM : M = T * 2 ^ (- ey)).
      { unfold M, T. rewrite Hvx, <- !Z.mul_assoc, <- !Z.pow_add_r by (unfold E; lia).
        f_equal. f_equal. unfold E. lia. }
      assert (0 < 2 ^ (- ey)) by (apply Z.pow_pos_nonneg; lia).
      rewrite Hq, Hr, HM, Hy. split.
      + apply Z.div_mul_cancel_r; lia.
      + intros H0. rewrite Z.mul_mod_distr_r by lia. rewrite H0. reflexivity.
    - assert (HM : T = M * 2 ^ ey).
      { unfold M, T. rewrite Hvx, <- !Z.mul_assoc, <- !Z.pow_add_r by (unfold E; lia).
        f_equal. f_equal. unfold E. lia. }
      assert (0 < 2 ^ ey) by (apply Z.pow_pos_nonneg; lia).
      rewrite Hq, Hr, HM, Hy. split.
      + symmetry. apply Z.div_mul_cancel_r; lia.
      + intros H0. rewrite Z.mul_mod_distr_r in H0 by lia. nia. }
  destruct HT as [HqT HrT].
  (* bounds on the quotient *)
  assert (Hqb : 2 ^ 52 <= q < 2 ^ 54).
  { rewrite Hq. unfold M. split.
    - apply Z.div_le_lower_bound; nia.
    - apply Z.div_lt_upper_bound; nia. }
  destruct q as [|pq|pq]; try lia.
  pose proof (Zdigits2_ge (Z.pos pq) 52 ltac:(lia) ltac:(lia)) as Hd1.
  pose proof (Zdigits2_le (Z.pos pq) 54 ltac:(lia) ltac:(lia)) as Hd2.
  pose proof (binary_round_aux_normal false pq E (new_location (Z.pos my) r)) as HBR.
  cbv zeta in HBR.
  set (d := Zdigits2 (Z.pos pq)) in *.
  destruct HBR as (m2 & m3 & e3 & Hrnd & Hm2 & Hexact & Hm3 & Hcase);
    try (unfold emin, emax, prec, E in *; lia).
  unfold prec in Hm2, Hexact, Hm3, Hcase.
  set (n := d - 53) in *.
  set (e' := E + n) in *.
  set (P := 2 ^ (- e')).
  assert (He' : e' <= -21) by (unfold e', E, n; lia).
  assert (HP : 0 < P) by (apply Z.pow_pos_nonneg; lia).
  assert (Hn : 0 < 2 ^ n) by (apply Z.pow_pos_nonneg; unfold n; lia).
  assert (HTP : T = A * P * 2 ^ n).
  { unfold T, P. rewrite <- Z.mul_assoc, <- Z.pow_add_r by (unfold e', n in *; lia).
    f_equal. f_equal. unfold e'. lia. }
  assert (Hm1 : Z.pos pq / 2 ^ n = (A * P) / B).
  { rewrite HqT, HTP. rewrite Z.div_div by lia.
    apply Z.div_mul_cancel_r; lia. }
  rewrite Hm1 in Hm2, Hexact.
  (* the rounded mantissa is large, hence [B <= P] *)
  assert (Hm2big : 2 ^ 52 <= m2) by (simpl in Hm3, Hcase; lia).
  assert (HBP : B <= P).
  { destruct (Z.le_gt_cases B P) as [|Hgt]; trivial. exfalso.
    pose proof (scaled_div_le A P B ltac:(lia) HP Hgt).
    lia. }
  exists m3, e3. split; [exact Hrnd|].
  split; [lia|].
  (* reduce to a statement on m2 and P *)
  assert (Hceil : - (- Z.pos m3 / 2 ^ (- e3)) = - (- m2 / P)).
  { destruct Hcase as [[-> ->] | [-> [Hm2e Hm3e]]].
    - reflexivity.
    - assert (EP : P = 2 ^ (- (e' + 1)) * 2).
      { unfold P. replace (- e') with (- (e' + 1) + 1) by lia.
        rewrite Z.pow_add_r by lia. reflexivity. }
      assert (0 < 2 ^ (- (e' + 1))) by (apply Z.pow_pos_nonneg; lia).
      rewrite EP, Hm2e, Hm3e. change (2 ^ 53) with (2 ^ (53 - 1) * 2).
      rewrite <- Z.mul_opp_l, Z.div_mul_cancel_r by lia. reflexivity. }
  rewrite Hceil.
  (* integer and fractional case *)
  apply ceil_after_rounding; try lia.
  intros H0. apply Hexact.
  - rewrite HrT; [apply new_location_exact|].
    apply Z.mod_divide in H0; [|lia]. destruct H0 as [k Hk].
    rewrite HTP, Hk. replace (k * B * P * 2 ^ n) with (k * P * 2 ^ n * B) by ring.
    apply Z.mod_mul. lia.
  - apply Z.mod_divide in H0; [|lia]. destruct H0 as [k Hk].
    rewrite HqT, HTP, Hk.
    replace (k * B * P * 2 ^ n) with (k * P * 2 ^ n * B) by ring.
    rewrite Z.div_mul by lia. apply Z.mod_mul. lia.
Qed.

(** [int(math.Ceil(float64(a) / float64(b)))] for a [uint32] [a] and a
    positive [int] [b]. *)
Lemma to_int_Ceil_div `{Platform} a b :
  0 <= a < 2 ^ 32 -> 1 <= b < 2 ^ 63 ->
  to_int (Ceil (div (of_int a) (of_int b))) = (a + b - 1) / b.
Proof.
  intros Ha Hb.
  (* the divisor *)
  assert (Hy : exists my ey B, of_int b = S754_finite false my ey
            /\ 2 ^ 52 <= Z.pos my < 2 ^ 53 /\ -52 <= ey <= 11 /\ 0 < B
            /\ ((ey <= 0 /\ Z.pos my = B * 2 ^ (- ey)) \/ (0 < ey /\ B = Z.pos my * 2 ^ ey))
            /\ (B = b \/ (2 ^ 32 <= B /\ 2 ^ 32 <= b))).
  { destruct (Z.lt_ge_cases b (2 ^ prec)) as [Hsmall|Hlarge].
    - destruct (of_int_small b ltac:(lia)) as (my & Hof & Hval & Hbd).
      pose proof (Zdigits2_le b prec ltac:(lia) ltac:(unfold prec; lia)).
      pose proof (Zdigits2_pos b ltac:(lia)).
      exists my, (Zdigits2 b - prec), b. unfold prec in *.
      split; [exact Hof|]. split; [exact Hbd|]. split; [lia|]. split; [lia|].
      split; [|now left]. left. split; [lia|].
      rewrite Hval. f_equal. f_equal. lia.
    - destruct (of_int_large b ltac:(lia)) as (my & ey & Hof & Hbd & Hey).
      exists my, ey, (Z.pos my * 2 ^ ey). unfold prec in *.
      assert (2 <= 2 ^ ey) by (change 2 with (2 ^ 1) at 1; apply Z.pow_le_mono_r; lia).
      split; [exact Hof|]. split; [exact Hbd|]. split; [lia|]. split; [nia|].
      split; [right; split; [lia|reflexivity]|].
      right. split; [nia|lia]. }
  destruct Hy as (my & ey & B & Hofb & Hmy & Hey & HB & Hvy & HBb).
  unfold of_int in *.
  destruct (Z.eq_dec a 0) as [->|Hane].
  - rewrite Hofb. cbn. rewrite Z.div_small by lia. reflexivity.
  - destruct (of_int_small a ltac:(unfold prec; lia)) as (mx & Hofa & Hvx & Hmx).
    pose proof (Zdigits2_le a 32 ltac:(lia) ltac:(lia)) as Hda.
    pose proof (Zdigits2_pos a ltac:(lia)) as Hda'.
    unfold div. rewrite Hofa, Hofb.
    destruct (SFdiv_ceil mx (Zdigits2 a - prec) my ey a B) as (m3 & e3 & Hdiv & He3 & Hc);
      unfold prec in *; try lia.
    { rewrite Hvx. f_equal. f_equal. lia. }
    rewrite Hdiv. cbn [Ceil].
    replace (0 <=? e3) with false by (symmetry; apply Z.leb_gt; lia).
    rewrite Hc.
    assert (Hceq : (a + B - 1) / B = (a + b - 1) / b).
    { destruct HBb as [->|[HB32 Hb32]]; [reflexivity|].
      rewrite (ceil_div_unique a B 1), (ceil_div_unique a b 1) by lia. reflexivity. }
    rewrite Hceq.
    set (c := (a + b - 1) / b).
    assert (Hcb : 1 <= c <= a).
    { unfold c. split.
      - apply Z.div_le_lower_bound; lia.
      - apply Z.div_le_upper_bound; nia. }
    destruct (of_int_small c ltac:(unfold prec; lia)) as (mc & Hofc & Hvc & Hmc).
    pose proof (Zdigits2_le c 32 ltac:(lia) ltac:(lia)) as Hdc.
    pose proof (Zdigits2_pos c ltac:(lia)) as Hdc'.
    rewrite Hofc. cbn [to_int]. unfold prec in *.
    replace (0 <=? Zdigits2 c - 53) with false by (symmetry; apply Z.leb_gt; lia).
    replace (- (Zdigits2 c - 53)) with (53 - Zdigits2 c) by lia.
    rewrite Hvc, Z.div_mul by (apply Z.pow_nonzero; lia).
    replace ((- 2 ^ 63 <=? c) && (c <? 2 ^ 63)) with true; [reflexivity|].
    symmetry. apply andb_true_iff. split; [apply Z.leb_le | apply Z.ltb_lt]; lia.
Qed.

End Float64Facts.

(** ** The exchange *)

Section ExchangeFacts.

Context {State : Type} `{HashState : Hash State} `{Plat : Float64.Platform}.
Import BytesFacts.

(** *** The info encoder *)

Lemma lengthPrefixedArray_field value : lengthPrefixedArray value = Spec.field value.
Proof.
  unfold lengthPrefixedArray, Spec.field.
  destruct value as [|b value]; [reflexivity|].
  replace (len (b :: value) =? 0) with false
    by (symmetry; apply Z.eqb_neq; unfold len; cbn [length]; lia).
  cbv zeta. now rewrite PutUint32_uint32.
Qed.

Lemma uint32ToBytes_BigEndian32 value : uint32ToBytes value = Spec.BigEndian32 value.
Proof. unfold uint32ToBytes. apply PutUint32_uint32. Qed.

Lemma be_decode_BigEndian32 n : be_decode (Spec.BigEndian32 n) = n mod 2 ^ 32.
Proof.
  rewrite <- PutUint32_uint32, be_decode_PutUint32. unfold uint32.
  apply Z.mod_mod. lia.
Qed.

(** C3: the fixed info is the concatenation, in the order algorithm
    identifier, local party info, remote party info, key length, of the
    three fields, each empty when the field is empty and otherwise a
    4-byte big-endian length followed by the field, and of the plain
    4-byte big-endian key length in bits, which is never omitted; the
    function is total. The four length bytes denote the length (reduced
    modulo 2^32, as the conversion to uint32 does), and the last four
    bytes denote the 32-bit key length. *)
Theorem fixedInfo_layout (exchange : ecdh1PuExchange State) (theirAgreementInfo : list byte) :
  fixedInfo exchange theirAgreementInfo
  = Spec.build_fixed_info (algorithmID exchange) (partyInfo exchange)
      theirAgreementInfo (dkLenBits exchange)
  /\ Spec.field [] = []
  /\ (forall f, f <> [] ->
        exists prefix, Spec.field f = prefix ++ f /\ length prefix = 4%nat
          /\ be_decode prefix = len f mod 2 ^ 32
          /\ (len f < 2 ^ 32 -> be_decode prefix = len f))
  /\ (forall n, length (Spec.BigEndian32 n) = 4%nat
        /\ be_decode (Spec.BigEndian32 n) = n mod 2 ^ 32
        /\ (0 <= n < 2 ^ 32 -> be_decode (Spec.BigEndian32 n) = n)).
Proof.
  split; [|split; [|split]].
  - unfold fixedInfo, Spec.build_fixed_info. cbv zeta.
    rewrite !lengthPrefixedArray_field, uint32ToBytes_BigEndian32.
    rewrite app_nil_l, <- !app_assoc. reflexivity.
  - reflexivity.
  - intros f Hf. exists (Spec.BigEndian32 (len f)).
    destruct f as [|b f]; [contradiction|].
    split; [reflexivity|]. split; [reflexivity|].
    rewrite be_decode_BigEndian32. split; [reflexivity|].
    intros Hlt. apply Z.mod_small. pose proof (len_nonneg (b :: f)). lia.
  - intros n. split; [reflexivity|].
    rewrite be_decode_BigEndian32. split; [reflexivity|].
    intros Hn. now apply Z.mod_small.
Qed.

(** *** The shared secret *)

Lemma computeSharedSecret_some (exchange : ecdh1PuExchange State) priv eph pub :
  ourPrivate exchange = Some priv ->
  computeSharedSecret exchange (Some eph) (Some pub)
  = Ok (BigIntBytes (fst (ScalarMult (PubCurve (Public eph)) (X pub) (Y pub)
                            (BigIntBytes (D eph))))
        ++ BigIntBytes (fst (ScalarMult (PubCurve (Public priv)) (X pub) (Y pub)
                               (BigIntBytes (D priv))))).
Proof.
  intros Hpriv. unfold computeSharedSecret. rewrite Hpriv.
  destruct (ScalarMult _ _ _ _) as [ze ye].
  destruct (ScalarMult _ _ _ _) as [zs ys]. reflexivity.
Qed.

(** C4: with a static key, an ephemeral key and a remote public key, the
    shared secret is Ze || Zs, where Ze is the x-coordinate of the scalar
    multiplication of the remote point by the ephemeral private scalar and
    Zs the one by the static private scalar, each written as the
    big-endian bytes of the coordinate and of minimal length: the bytes
    denote the coordinate (its absolute value) and no byte string denoting
    it is shorter, so there is no zero padding. *)
Theorem computeSharedSecret_concat (exchange : ecdh1PuExchange State)
    (ourPrivate' ourEphemeralPrivateKey : PrivateKey) (theirPublicKey : PublicKey) :
  ourPrivate exchange = Some ourPrivate' ->
  let Ze := fst (ScalarMult (PubCurve (Public ourEphemeralPrivateKey))
                   (X theirPublicKey) (Y theirPublicKey)
                   (BigIntBytes (D ourEphemeralPrivateKey))) in
  let Zs := fst (ScalarMult (PubCurve (Public ourPrivate'))
                   (X theirPublicKey) (Y theirPublicKey)
                   (BigIntBytes (D ourPrivate'))) in
  computeSharedSecret exchange (Some ourEphemeralPrivateKey) (Some theirPublicKey)
    = Ok (BigIntBytes Ze ++ BigIntBytes Zs)
  /\ (forall c, be_decode (BigIntBytes c) = Z.abs c
        /\ forall bs, be_decode bs = Z.abs c ->
             (length (BigIntBytes c) <= length bs)%nat).
Proof.
  intros Hpriv Ze Zs. split.
  - subst Ze Zs. now apply computeSharedSecret_some.
  - intros c. split; [apply BigIntBytes_decode | apply BigIntBytes_minimal].
Qed.

(** *** Missing parameters *)

(** C6: a nil ephemeral key, a nil remote public key and a nil hash
    function are each rejected by the checks at the head of [SecretKey],
    in this order and whatever the other parameters are; a nil static
    private key is rejected next, with the error of
    [computeSharedSecret]. In every case there is an error and no output. *)
Theorem SecretKey_missing_parameter (exchange : ecdh1PuExchange State)
    (ephemeralPrivateKey : option PrivateKey) (theirPublicKey : option PublicKey)
    (theirAgreementInfo : list byte) :
  (ephemeralPrivateKey = None ->
     SecretKey exchange ephemeralPrivateKey theirPublicKey theirAgreementInfo
     = Err "ephemeral private key is mandatory")
  /\ (ephemeralPrivateKey <> None -> theirPublicKey = None ->
      SecretKey exchange ephemeralPrivateKey theirPublicKey theirAgreementInfo
      = Err "their public key is mandatory")
  /\ (ephemeralPrivateKey <> None -> theirPublicKey <> None -> h exchange = None ->
      SecretKey exchange ephemeralPrivateKey theirPublicKey theirAgreementInfo
      = Err "hash function is mandatory")
  /\ (ephemeralPrivateKey <> None -> theirPublicKey <> None -> h exchange <> None ->
      ourPrivate exchange = None ->
      computeSharedSecret exchange ephemeralPrivateKey theirPublicKey
      = Err "unable to process with nil private key"
      /\ SecretKey exchange ephemeralPrivateKey theirPublicKey theirAgreementInfo
         = Err "unable to process with nil private key")
  /\ ((ephemeralPrivateKey = None \/ theirPublicKey = None \/ h exchange = None
       \/ ourPrivate exchange = None) ->
      exists msg,
        SecretKey exchange ephemeralPrivateKey theirPublicKey theirAgreementInfo
        = Err msg).
Proof.
  unfold SecretKey, computeSharedSecret.
  destruct ephemeralPrivateKey as [eph|], theirPublicKey as [pub|],
    (h exchange) as [new_hash|], (ourPrivate exchange) as [priv|];
    repeat split; intros; try congruence; try (eexists; reflexivity);
    try (repeat match goal with H : _ \/ _ |- _ => destruct H end; congruence).
Qed.

(** *** The KDF *)

Lemma kdf_reps_ceil size dkLen :
  0 <= dkLen < 2 ^ 32 -> 1 <= size < 2 ^ 63 ->
  kdf_reps size dkLen = Spec.ceil_div dkLen size.
Proof. intros. now apply Float64Facts.to_int_Ceil_div. Qed.

Lemma ceil_div_bounds a b :
  0 <= a -> 1 <= b ->
  0 <= Spec.ceil_div a b <= a /\ a <= Spec.ceil_div a b * b.
Proof.
  intros Ha Hb. unfold Spec.ceil_div.
  pose proof (Z.div_mod (a + b - 1) b ltac:(lia)).
  pose proof (Z.mod_pos_bound (a + b - 1) b ltac:(lia)).
  repeat split; nia.
Qed.

Lemma slice_to_length n s : 0 <= n -> len (slice_to n s) = n.
Proof.
  intros Hn. unfold slice_to, len.
  rewrite length_firstn, length_app, repeat_length. lia.
Qed.

Lemma slice_to_firstn n s : n <= len s -> slice_to n s = firstn (Z.to_nat n) s.
Proof.
  intros Hn. unfold slice_to, len in *.
  replace (Z.to_nat n - length s)%nat with 0%nat by lia.
  cbn [repeat]. now rewrite app_nil_r.
Qed.

(** Past the guard, [nistKdf] returns the truncated accumulator. *)
Lemma nistKdf_rounds (h0 : State) sharedSecret info dkLen :
  kdf_reps (Size h0) dkLen < 2 ^ 32 ->
  let reps := kdf_reps (Size h0) dkLen in
  let r := kdf_rounds (Z.to_nat reps) reps 1 h0 sharedSecret info [] in
  nistKdf h0 sharedSecret info dkLen = (Ok (slice_to dkLen (fst r)), snd r).
Proof.
  intros Hlt reps r. unfold nistKdf. fold reps.
  replace (reps >=? 2 ^ 32) with false by (rewrite Z.geb_leb; symmetry; apply Z.leb_gt; exact Hlt).
  cbv zeta. fold r. destruct r as [dk h']. reflexivity.
Qed.

(** At the guard, [nistKdf] fails and the hash object is left untouched. *)
Lemma nistKdf_overflow (h0 : State) sharedSecret info dkLen :
  2 ^ 32 <= kdf_reps (Size h0) dkLen ->
  nistKdf h0 sharedSecret info dkLen = (Err "too many round count for KDF", h0).
Proof.
  intros Hge. unfold nistKdf.
  replace (kdf_reps (Size h0) dkLen >=? 2 ^ 32) with true
    by (rewrite Z.geb_leb; symmetry; apply Z.leb_le; exact Hge).
  reflexivity.
Qed.

(** The loop stops by itself: fuel beyond the rounds left is not used. *)
Lemma kdf_rounds_fuel n : forall m reps counter (h0 : State) sharedSecret info dk,
  reps - counter + 1 <= Z.of_nat n -> (n <= m)%nat ->
  kdf_rounds m reps counter h0 sharedSecret info dk
  = kdf_rounds n reps counter h0 sharedSecret info dk.
Proof.
  induction n as [|n IH]; intros m reps counter h0 ss info dk Hn Hm.
  - destruct m as [|m]; [reflexivity|]. cbn [kdf_rounds].
    replace (counter <=? reps) with false by (symmetry; apply Z.leb_gt; lia).
    reflexivity.
  - destruct m as [|m]; [lia|]. cbn [kdf_rounds].
    destruct (counter <=? reps); [|reflexivity].
    apply IH; lia.
Qed.

(** The guard of [nistKdf], on the round count the function computed:
    above 2^32 - 1 it fails at once, before any round, and leaves the hash
    object as it was; up to 2^32 - 1 it does not fail. For a uint32 length
    and a digest size of at least one byte the computed count is the
    ceiling of the quotient. *)
Theorem nistKdf_round_overflow (h0 : State) (sharedSecret info : list byte) (dkLen : Z) :
  let reps := kdf_reps (Size h0) dkLen in
  (2 ^ 32 - 1 < reps ->
     nistKdf h0 sharedSecret info dkLen = (Err "too many round count for KDF", h0))
  /\ (reps <= 2 ^ 32 - 1 ->
      exists dk h', nistKdf h0 sharedSecret info dkLen = (Ok dk, h'))
  /\ (0 <= dkLen < 2 ^ 32 -> 1 <= Size h0 < 2 ^ 63 ->
      reps = Spec.ceil_div dkLen (Size h0)).
Proof.
  intros reps. split; [|split].
  - intros Hgt. apply nistKdf_overflow. fold reps. lia.
  - intros Hle. do 2 eexists. apply nistKdf_rounds. fold reps. lia.
  - intros Hd Hs. now apply kdf_reps_ceil.
Qed.

(** C9: for a uint32 length and a hash whose digest is at least one byte
    the round count is at most the length, so below 2^32: the overflow
    branch is not reachable and [nistKdf] returns no error. *)
Theorem nistKdf_never_fails (h0 : State) (sharedSecret info : list byte) (dkLen : Z) :
  0 <= dkLen < 2 ^ 32 -> 1 <= Size h0 < 2 ^ 63 ->
  kdf_reps (Size h0) dkLen = Spec.ceil_div dkLen (Size h0)
  /\ kdf_reps (Size h0) dkLen <= 2 ^ 32 - 1
  /\ exists dk, fst (nistKdf h0 sharedSecret info dkLen) = Ok dk.
Proof.
  intros Hd Hs.
  pose proof (kdf_reps_ceil (Size h0) dkLen Hd Hs) as Hreps.
  destruct (ceil_div_bounds dkLen (Size h0)) as [Hb _]; try lia.
  split; [exact Hreps|]. split; [lia|].
  eexists. rewrite nistKdf_rounds by lia. reflexivity.
Qed.

Lemma nistKdf_never_fails_aux (h0 : State) (sharedSecret info : list byte) (dkLen : Z) :
  0 <= dkLen < 2 ^ 32 -> 1 <= Size h0 < 2 ^ 63 ->
  exists dk, fst (nistKdf h0 sharedSecret info dkLen) = Ok dk /\ len dk = dkLen.
Proof.
  intros Hd Hs.
  pose proof (kdf_reps_ceil (Size h0) dkLen Hd Hs) as Hreps.
  destruct (ceil_div_bounds dkLen (Size h0)) as [Hb _]; try lia.
  eexists. rewrite nistKdf_rounds by lia. split; [reflexivity|].
  apply slice_to_length. lia.
Qed.

(** The key has the requested length as soon as the KDF does not fail. *)
Lemma SecretKey_length (exchange : ecdh1PuExchange State) priv new_hash eph pub info :
  ourPrivate exchange = Some priv -> h exchange = Some new_hash ->
  0 <= dkLenBits exchange < 2 ^ 32 -> 1 <= Size (new_hash tt) < 2 ^ 63 ->
  exists dk, SecretKey exchange (Some eph) (Some pub) info = Ok dk
    /\ len dk = dkLenBits exchange / 8.
Proof.
  intros Hpriv Hh Hbits Hsize.
  unfold SecretKey. rewrite Hh.
  rewrite (computeSharedSecret_some exchange priv eph pub Hpriv).
  cbv zeta.
  assert (Hshift : Z.shiftr (dkLenBits exchange) 3 = dkLenBits exchange / 8)
    by (rewrite Z.shiftr_div_pow2 by lia; reflexivity).
  rewrite Hshift.
  assert (Hlen : 0 <= dkLenBits exchange / 8 < 2 ^ 32).
  { split; [apply Z.div_pos; lia|]. apply Z.div_lt_upper_bound; lia. }
  match goal with
  | |- context [nistKdf ?a ?b ?c ?d] =>
      destruct (nistKdf_never_fails_aux a b c d Hlen Hsize) as [dk [Hdk Hl]]
  end.
  rewrite Hdk. exists dk. split; [reflexivity | exact Hl].
Qed.

Lemma string_length_append (a b : string) :
  String.length (a ++ b)%string = (String.length a + String.length b)%nat.
Proof. induction a as [|c a IH]; cbn; [reflexivity | now rewrite IH]. Qed.

(** How [SecretKey] hands on the errors of its two steps: an error of the
    shared-secret step is returned as it is, without any added context; an
    error of the KDF step is returned behind the context
    "unable to apply kdf: ". Either way the result is the error alone. *)
Theorem SecretKey_error_propagation (exchange : ecdh1PuExchange State)
    (new_hash : unit -> State) (eph : PrivateKey) (pub : PublicKey) (info : list byte) :
  h exchange = Some new_hash ->
  (forall err, computeSharedSecret exchange (Some eph) (Some pub) = Err err ->
     SecretKey exchange (Some eph) (Some pub) info = Err err)
  /\ (forall sharedSecret err,
      computeSharedSecret exchange (Some eph) (Some pub) = Ok sharedSecret ->
      fst (nistKdf (new_hash tt) sharedSecret (fixedInfo exchange info)
             (Z.shiftr (dkLenBits exchange) 3)) = Err err ->
      SecretKey exchange (Some eph) (Some pub) info = Err ("unable to apply kdf: " ++ err)
      /\ Spec.wraps err ("unable to apply kdf: " ++ err)).
Proof.
  intros Hh. unfold SecretKey. rewrite Hh. split.
  - intros err ->. reflexivity.
  - intros ss err -> Hkdf. cbv zeta. rewrite Hkdf. split; [reflexivity|].
    exists "unable to apply kdf: "%string. split; [discriminate | reflexivity].
Qed.

(** *** Hash objects that keep the contract of [hash.Hash] *)

Section Lawful.

Context {Lawful : @LawfulHash State HashState}.

Lemma kdf_rounds_lawful reps sharedSecret info n : forall c (h0 : State) dk,
  Z.of_nat (c + n) = reps + 1 ->
  fst (kdf_rounds n reps (Z.of_nat c) h0 sharedSecret info dk)
  = dk ++ flat_map (fun counter => digest (Spec.BigEndian32 counter ++ sharedSecret ++ info)) (map Z.of_nat (seq c n)).
Proof.
  induction n as [|n IH]; intros c h0 dk Hn.
  - cbn. now rewrite app_nil_r.
  - cbn [kdf_rounds].
    replace (Z.of_nat c <=? reps) with true by (symmetry; apply Z.leb_le; lia).
    replace (Z.of_nat c + 1) with (Z.of_nat (S c)) by lia.
    rewrite IH by lia.
    rewrite Sum_digest, !written_Write, written_Reset, app_nil_l.
    unfold uint32ToBytes. rewrite !PutUint32_uint32.
    assert (Hc : Spec.BigEndian32 (uint32 (Z.of_nat c)) = Spec.BigEndian32 (Z.of_nat c)).
    { rewrite <- !PutUint32_uint32. unfold uint32. now rewrite Z.mod_mod by lia. }
    rewrite Hc, <- !app_assoc. reflexivity.
Qed.

Lemma len_flat_map_digest sharedSecret info cs :
  len (flat_map (fun counter => digest (Spec.BigEndian32 counter ++ sharedSecret ++ info)) cs) = len cs * hashLen.
Proof.
  induction cs as [|c cs IH]; [reflexivity|].
  cbn [flat_map]. rewrite len_app, IH, digest_len.
  unfold len. cbn [length]. lia.
Qed.

(** C2: with a hash object that keeps the contract, a digest of at least
    one byte and a uint32 output length O, the KDF returns the first O
    bytes of Hash(BigEndian32(1) || Z || info) || ... ||
    Hash(BigEndian32(reps) || Z || info), reps = ceil(O / hashLen),
    whatever the hash object held before the call: each round starts
    from a reset object. *)
Theorem nistKdf_derive (h0 : State) (sharedSecret info : list byte) (dkLen : Z) :
  1 <= hashLen < 2 ^ 63 -> 0 <= dkLen < 2 ^ 32 ->
  fst (nistKdf h0 sharedSecret info dkLen)
  = Ok (Spec.derive digest hashLen sharedSecret info dkLen).
Proof.
  intros Hh Hd.
  assert (Hs : 1 <= Size h0 < 2 ^ 63) by now rewrite Size_hashLen.
  pose proof (kdf_reps_ceil (Size h0) dkLen Hd Hs) as Hreps.
  destruct (ceil_div_bounds dkLen (Size h0)) as [Hb Hcover]; try lia.
  rewrite nistKdf_rounds by lia. cbn [fst]. rewrite Hreps.
  rewrite Size_hashLen in *.
  set (reps := Spec.ceil_div dkLen hashLen) in *.
  pose proof (kdf_rounds_lawful reps sharedSecret info (Z.to_nat reps) 1 h0 [])
    as Hrounds.
  change (Z.of_nat 1) with 1 in Hrounds. rewrite Hrounds by lia.
  rewrite app_nil_l. unfold Spec.derive, Spec.counters. fold reps.
  f_equal. apply slice_to_firstn.
  rewrite len_flat_map_digest. unfold len. rewrite length_map, length_seq. lia.
Qed.

(** C5: with keys present, a hash that keeps the contract and a key
    length that is a positive multiple of 8, [SecretKey] returns a key
    of exactly dkLenBits / 8 bytes, that is of dkLenBits bits. *)
Theorem SecretKey_length_multiple_of_8 (exchange : ecdh1PuExchange State)
    (priv : PrivateKey) (new_hash : unit -> State)
    (eph : PrivateKey) (pub : PublicKey) (info : list byte) :
  ourPrivate exchange = Some priv -> h exchange = Some new_hash ->
  1 <= hashLen < 2 ^ 63 ->
  0 < dkLenBits exchange < 2 ^ 32 -> dkLenBits exchange mod 8 = 0 ->
  exists dk, SecretKey exchange (Some eph) (Some pub) info = Ok dk
    /\ len dk = dkLenBits exchange / 8
    /\ 8 * len dk = dkLenBits exchange.
Proof.
  intros Hpriv Hh Hlen Hbits Hmod.
  destruct (SecretKey_length exchange priv new_hash eph pub info Hpriv Hh)
    as [dk [Hdk Hl]]; [lia | now rewrite Size_hashLen |].
  exists dk. split; [exact Hdk|]. split; [exact Hl|].
  rewrite Hl. pose proof (Z.div_mod (dkLenBits exchange) 8). lia.
Qed.

(** C10: the key length is not validated: any uint32 value of dkLenBits,
    multiple of 8 or not, gives a key of floor(dkLenBits / 8) bytes
    without error, and dkLenBits = 0 gives the empty key. *)
Theorem SecretKey_length_unchecked (exchange : ecdh1PuExchange State)
    (priv : PrivateKey) (new_hash : unit -> State)
    (eph : PrivateKey) (pub : PublicKey) (info : list byte) :
  ourPrivate exchange = Some priv -> h exchange = Some new_hash ->
  1 <= hashLen < 2 ^ 63 ->
  0 <= dkLenBits exchange < 2 ^ 32 ->
  exists dk, SecretKey exchange (Some eph) (Some pub) info = Ok dk
    /\ len dk = dkLenBits exchange / 8
    /\ (dkLenBits exchange < 8 -> dk = []).
Proof.
  intros Hpriv Hh Hlen Hbits.
  destruct (SecretKey_length exchange priv new_hash eph pub info Hpriv Hh)
    as [dk [Hdk Hl]]; [lia | now rewrite Size_hashLen |].
  exists dk. split; [exact Hdk|]. split; [exact Hl|].
  intros Hsmall. rewrite Z.div_small in Hl by lia.
  destruct dk; [reflexivity|]. unfold len in Hl. cbn [length] in Hl. lia.
Qed.

End Lawful.

End ExchangeFacts.

(** ** SHA-256 keeps the contract of [hash.Hash] *)

Module sha256Facts.
Import BytesFacts.

Lemma round_length st kw : length st = 8%nat -> length (sha256.round st kw) = 8%nat.
Proof.
  intros Hst.
  do 9 (destruct st as [|? st]; try discriminate Hst).
  reflexivity.
Qed.

Lemma rounds_length kws : forall st,
  length st = 8%nat -> length (fold_left sha256.round kws st) = 8%nat.
Proof.
  induction kws as [|kw kws IH]; intros st Hst; cbn [fold_left].
  - exact Hst.
  - apply IH, round_length, Hst.
Qed.

Lemma block_length hs chunk : length hs = 8%nat -> length (sha256.block hs chunk) = 8%nat.
Proof.
  intros Hhs. unfold sha256.block.
  rewrite length_map, length_combine, rounds_length by exact Hhs.
  rewrite Hhs. reflexivity.
Qed.

Lemma blocks_length n : forall hs p,
  length hs = 8%nat -> length (sha256.blocks n hs p) = 8%nat.
Proof.
  induction n as [|n IH]; intros hs p Hhs; cbn [sha256.blocks].
  - exact Hhs.
  - apply IH, block_length, Hhs.
Qed.

Lemma words_bytes_length ws : length (flat_map PutUint32 ws) = (4 * length ws)%nat.
Proof.
  induction ws as [|w ws IH]; [reflexivity|].
  cbn [flat_map]. rewrite length_app, IH. cbn [length PutUint32]. lia.
Qed.

(** A SHA-256 digest has 32 bytes. *)
Lemma Sum256_len msg : len (sha256.Sum256 msg) = 32.
Proof.
  unfold sha256.Sum256, len.
  rewrite words_bytes_length, blocks_length by reflexivity. reflexivity.
Qed.

End sha256Facts.

#[global] Instance LawfulHash_sha256 : LawfulHash sha256.digest := {|
  digest := sha256.Sum256;
  hashLen := 32;
  written := sha256.absorbed;
  written_Reset := fun _ => eq_refl;
  written_Write := fun _ _ => eq_refl;
  Sum_digest := fun _ _ => eq_refl;
  Size_hashLen := fun _ => eq_refl;
  digest_len := sha256Facts.Sum256_len
|}.

(** ** The package's test vectors and other concrete runs *)

Module Vectors.
Import Fixtures.

(** FIPS 180-4, appendix B.1: the digest of "abc". *)
Example Sum256_abc :
  map Z_of_byte (sha256.Sum256 (bytes "abc"))
  = [0xba; 0x78; 0x16; 0xbf; 0x8f; 0x01; 0xcf; 0xea; 0x41; 0x41; 0x40; 0xde;
     0x5d; 0xae; 0x22; 0x23; 0xb0; 0x03; 0x61; 0xa3; 0x96; 0x17; 0x7a; 0x9c;
     0xb4; 0x10; 0xff; 0x61; 0xf2; 0x00; 0x15; 0xad].
Proof. vm_compute. reflexivity. Qed.

(** Twice the base point of P-256. *)
Example P256_double_base_point :
  ScalarMult elliptic.P256
    0x6b17d1f2e12c4247f8bce6e563a440f277037d812deb33a0f4a13945d898c296
    0x4fe342e2fe1a7f9b8ee7eb4a7c0f9e162bce33576b315ececbb6406837bf51f5
    [x02]
  = (0x7cf27b188d034f7e8a52380304b51ac3c08969e277f21b35a60b48fc47669978,
     0x07775510db8ed040293d9ac69f7430dbba7dade63ce982299e04b79d227873d1).
Proof. vm_compute. reflexivity. Qed.

(** The round count on both sides of a digest boundary. *)
Example kdf_reps_32_33 :
  @kdf_reps Float64.amd64 32 32 = 1 /\ @kdf_reps Float64.amd64 32 33 = 2
  /\ @kdf_reps Float64.arm64 32 0 = 0 /\ @kdf_reps Float64.arm64 20 4294967295 = 214748365.
Proof. vm_compute. repeat split. Qed.

(** The shared secret of the test vectors: Ze || Zs. *)
Lemma shared_secret_vector (hh : option (unit -> sha256.digest)) alg bits party :
  computeSharedSecret (ECDH1PU (Some aliceStaticJWK) hh alg bits party)
    (Some aliceEphemeralJWK) (Some (Public bobStaticJWK))
  = Ok (BigIntBytes 0x9e56d91d817135d372834283bf84269cfb316ea3da806a48f6daa7798cfe90c4
        ++ BigIntBytes 0xe3ca3474384c9f62b30bfd4c688b3e7d4110a1b4badc3cc54ef7b81241efd50d).
Proof.
  rewrite (computeSharedSecret_some _ aliceStaticJWK) by reflexivity.
  vm_compute. reflexivity.
Qed.

(** Past its checks, [SecretKey] is the KDF applied to the shared secret. *)
Lemma SecretKey_kdf {State} `{Hash State} `{Float64.Platform}
    (exchange : ecdh1PuExchange State) new_hash eph pub info sharedSecret :
  h exchange = Some new_hash ->
  computeSharedSecret exchange (Some eph) (Some pub) = Ok sharedSecret ->
  SecretKey exchange (Some eph) (Some pub) info
  = match fst (nistKdf (new_hash tt) sharedSecret (fixedInfo exchange info)
                 (Z.shiftr (dkLenBits exchange) 3)) with
    | Err err => Err ("unable to apply kdf: " ++ err)%string
    | Ok dk => Ok dk
    end.
Proof. intros Hh Hss. unfold SecretKey. rewrite Hh, Hss. reflexivity. Qed.

(** C1: the three known-answer vectors of the test, from the ECDH-1PU
    draft: SHA-256, P-256, Alice's static and ephemeral private keys, Bob's
    public key, "Alice" and "Bob" as party infos; the keys derived for
    A128GCM, A192GCM and A256GCM are the expected 16, 24 and 32 bytes, on
    every platform. *)
Theorem SecretKey_known_answers `{Float64.Platform} :
  SecretKey (ECDH1PU (Some aliceStaticJWK) (Some sha256.New) (bytes "A128GCM") 128
               (bytes "Alice"))
    (Some aliceEphemeralJWK) (Some (Public bobStaticJWK)) (bytes "Bob")
  = Ok (mustBase64UrlDecode "AiVWJdYQJPxPu-lJu_OkeA")
  /\ SecretKey (ECDH1PU (Some aliceStaticJWK) (Some sha256.New) (bytes "A192GCM") 192
                  (bytes "Alice"))
       (Some aliceEphemeralJWK) (Some (Public bobStaticJWK)) (bytes "Bob")
     = Ok (mustBase64UrlDecode "IXAgU5hhkaK5wGiPzFcP2ho3qPLjqSAZ")
  /\ SecretKey (ECDH1PU (Some aliceStaticJWK) (Some sha256.New) (bytes "A256GCM") 256
                  (bytes "Alice"))
       (Some aliceEphemeralJWK) (Some (Public bobStaticJWK)) (bytes "Bob")
     = Ok (mustBase64UrlDecode "bK8Tcj0UhQrUtCzW3ek1v_0v_wCpunDeBcIDpeFyLKc").
Proof.
  split; [|split];
    (erewrite SecretKey_kdf;
       [ | reflexivity | apply shared_secret_vector ];
     vm_compute; reflexivity).
Qed.

End Vectors.

(** ** The theorems at concrete inputs *)

Module Witnesses.
Import Fixtures.

(** An exchange of the test, with SHA-256 and a 256-bit key. *)
Definition aliceExchange : ecdh1PuExchange sha256.digest :=
  ECDH1PU (Some aliceStaticJWK) (Some sha256.New) (bytes "A256GCM") 256 (bytes "Alice").

(** The same without the static private key. *)
Definition keylessExchange : ecdh1PuExchange sha256.digest :=
  ECDH1PU None (Some sha256.New) (bytes "A256GCM") 256 (bytes "Alice").

(** An exchange over the hash object that claims an empty digest. *)
Definition emptyHashExchange : @ecdh1PuExchange unit :=
  ECDH1PU (Some aliceStaticJWK) (Some (fun _ : unit => tt)) (bytes "A256GCM") 256
    (bytes "Alice").

Lemma nistKdf_derive_witness :
  1 <= 32 < 2 ^ 63 /\ 0 <= 48 < 2 ^ 32
  /\ fst (@nistKdf _ _ Float64.amd64 (sha256.New tt) (bytes "secret") (bytes "info") 48)
     = Ok (Spec.derive sha256.Sum256 32 (bytes "secret") (bytes "info") 48).
Proof.
  split; [lia|]. split; [lia|].
  apply (@nistKdf_derive _ _ Float64.amd64 LawfulHash_sha256); simpl; lia.
Defined.

Lemma computeSharedSecret_concat_witness :
  ourPrivate aliceExchange = Some aliceStaticJWK
  /\ computeSharedSecret aliceExchange (Some aliceEphemeralJWK) (Some (Public bobStaticJWK))
     = Ok (BigIntBytes (fst (ScalarMult (PubCurve (Public aliceEphemeralJWK))
                               (X (Public bobStaticJWK)) (Y (Public bobStaticJWK))
                               (BigIntBytes (D aliceEphemeralJWK))))
           ++ BigIntBytes (fst (ScalarMult (PubCurve (Public aliceStaticJWK))
                                  (X (Public bobStaticJWK)) (Y (Public bobStaticJWK))
                                  (BigIntBytes (D aliceStaticJWK))))).
Proof.
  split; [reflexivity|].
  exact (proj1 (computeSharedSecret_concat aliceExchange aliceStaticJWK aliceEphemeralJWK
                  (Public bobStaticJWK) eq_refl)).
Defined.

Lemma SecretKey_length_multiple_of_8_witness :
  ourPrivate aliceExchange = Some aliceStaticJWK /\ h aliceExchange = Some sha256.New
  /\ 1 <= 32 < 2 ^ 63 /\ 0 < 256 < 2 ^ 32 /\ 256 mod 8 = 0
  /\ exists dk,
       @SecretKey _ _ Float64.amd64 aliceExchange (Some aliceEphemeralJWK)
         (Some (Public bobStaticJWK)) (bytes "Bob") = Ok dk
       /\ len dk = 256 / 8 /\ 8 * len dk = 256.
Proof.
  split; [reflexivity|]. split; [reflexivity|]. split; [lia|]. split; [lia|].
  split; [reflexivity|].
  apply (@SecretKey_length_multiple_of_8 _ _ Float64.amd64 LawfulHash_sha256 aliceExchange
           aliceStaticJWK sha256.New); try reflexivity; simpl; lia.
Defined.

Lemma SecretKey_length_unchecked_witness :
  let exchange := ECDH1PU (Some aliceStaticJWK) (Some sha256.New) (bytes "A256GCM") 13
                    (bytes "Alice") in
  ourPrivate exchange = Some aliceStaticJWK /\ h exchange = Some sha256.New
  /\ 1 <= 32 < 2 ^ 63 /\ 0 <= 13 < 2 ^ 32
  /\ exists dk,
       @SecretKey _ _ Float64.amd64 exchange (Some aliceEphemeralJWK)
         (Some (Public bobStaticJWK)) (bytes "Bob") = Ok dk
       /\ len dk = 13 / 8 /\ (13 < 8 -> dk = []).
Proof.
  intros exchange.
  split; [reflexivity|]. split; [reflexivity|]. split; [lia|]. split; [lia|].
  apply (@SecretKey_length_unchecked _ _ Float64.amd64 LawfulHash_sha256 exchange
           aliceStaticJWK sha256.New); try reflexivity; simpl; lia.
Defined.

Lemma nistKdf_never_fails_witness :
  0 <= 48 < 2 ^ 32 /\ 1 <= 32 < 2 ^ 63
  /\ @kdf_reps Float64.amd64 32 48 = Spec.ceil_div 48 32
  /\ @kdf_reps Float64.amd64 32 48 <= 2 ^ 32 - 1
  /\ exists dk,
       fst (@nistKdf _ _ Float64.amd64 (sha256.New tt) (bytes "secret") (bytes "info") 48)
       = Ok dk.
Proof.
  split; [lia|]. split; [lia|].
  pose proof (@nistKdf_never_fails _ _ Float64.amd64 (sha256.New tt) (bytes "secret")
                (bytes "info") 48) as W.
  change (Size (sha256.New tt)) with 32 in W.
  apply W; lia.
Defined.

(** The round count of the empty-digest hash object on arm64: the quotient
    is +Inf, which [int] saturates. *)
Lemma kdf_reps_empty_digest_arm64 : @kdf_reps Float64.arm64 0 32 = 2 ^ 63 - 1.
Proof. vm_compute. reflexivity. Qed.

Lemma nistKdf_round_overflow_witness :
  @nistKdf _ Fixtures.emptyHash Float64.arm64 tt (bytes "secret") (bytes "info") 32
  = (Err "too many round count for KDF", tt)
  /\ exists dk h',
       @nistKdf _ _ Float64.arm64 (sha256.New tt) (bytes "secret") (bytes "info") 32
       = (Ok dk, h').
Proof.
  split.
  - apply (proj1 (@nistKdf_round_overflow _ Fixtures.emptyHash Float64.arm64 tt
                    (bytes "secret") (bytes "info") 32)).
    change (@Size _ Fixtures.emptyHash tt) with 0.
    rewrite kdf_reps_empty_digest_arm64. lia.
  - apply (proj1 (proj2 (@nistKdf_round_overflow _ _ Float64.arm64 (sha256.New tt)
                           (bytes "secret") (bytes "info") 32))).
    change (@Size _ sha256.Hash_digest (sha256.New tt)) with 32.
    rewrite (@kdf_reps_ceil Float64.arm64 32 32) by lia.
    vm_compute. discriminate.
Defined.

Lemma SecretKey_missing_parameter_witness :
  @SecretKey _ _ Float64.amd64 aliceExchange None (Some (Public bobStaticJWK)) (bytes "Bob")
  = Err "ephemeral private key is mandatory"
  /\ @SecretKey _ _ Float64.amd64 aliceExchange (Some aliceEphemeralJWK) None (bytes "Bob")
     = Err "their public key is mandatory"
  /\ @SecretKey _ _ Float64.amd64 keylessExchange (Some aliceEphemeralJWK)
       (Some (Public bobStaticJWK)) (bytes "Bob")
     = Err "unable to process with nil private key".
Proof.
  split; [|split].
  - apply (proj1 (@SecretKey_missing_parameter _ _ Float64.amd64 aliceExchange None
                    (Some (Public bobStaticJWK)) (bytes "Bob"))).
    reflexivity.
  - apply (proj1 (proj2 (@SecretKey_missing_parameter _ _ Float64.amd64 aliceExchange
                           (Some aliceEphemeralJWK) None (bytes "Bob"))));
      [discriminate | reflexivity].
  - apply (proj1 (proj2 (proj2 (proj2
             (@SecretKey_missing_parameter _ _ Float64.amd64 keylessExchange
                (Some aliceEphemeralJWK) (Some (Public bobStaticJWK)) (bytes "Bob"))))));
      try discriminate; reflexivity.
Defined.

(** The KDF step fails for the empty-digest hash object on arm64. *)
Lemma nistKdf_empty_digest_arm64 sharedSecret info :
  fst (@nistKdf _ Fixtures.emptyHash Float64.arm64 tt sharedSecret info
         (Z.shiftr (dkLenBits emptyHashExchange) 3))
  = Err "too many round count for KDF".
Proof.
  rewrite nistKdf_overflow; [reflexivity|].
  change (@Size _ Fixtures.emptyHash tt) with 0.
  change (Z.shiftr (dkLenBits emptyHashExchange) 3) with 32.
  rewrite kdf_reps_empty_digest_arm64. lia.
Qed.

Lemma SecretKey_error_propagation_witness :
  h keylessExchange = Some sha256.New
  /\ @SecretKey _ _ Float64.amd64 keylessExchange (Some aliceEphemeralJWK)
       (Some (Public bobStaticJWK)) (bytes "Bob")
     = Err "unable to process with nil private key"
  /\ @SecretKey _ Fixtures.emptyHash Float64.arm64 emptyHashExchange
       (Some aliceEphemeralJWK) (Some (Public bobStaticJWK)) (bytes "Bob")
     = Err "unable to apply kdf: too many round count for KDF".
Proof.
  split; [reflexivity|]. split.
  - apply (proj1 (@SecretKey_error_propagation _ _ Float64.amd64 keylessExchange
                    sha256.New aliceEphemeralJWK (Public bobStaticJWK) (bytes "Bob")
                    eq_refl)).
    reflexivity.
  - refine (proj1 (proj2 (@SecretKey_error_propagation _ Fixtures.emptyHash Float64.arm64
                            emptyHashExchange (fun _ => tt) aliceEphemeralJWK
                            (Public bobStaticJWK) (bytes "Bob") eq_refl)
                     _ "too many round count for KDF"%string
                     (@computeSharedSecret_some _ emptyHashExchange aliceStaticJWK
                        aliceEphemeralJWK (Public bobStaticJWK) eq_refl)
                     (nistKdf_empty_digest_arm64 _ _))).
Defined.

(** Not every error of the shared-secret step comes back wrapped with
    context: without a static private key, [SecretKey] returns the very
    error of [computeSharedSecret]. *)
Lemma SecretKey_shared_secret_error_not_wrapped :
  ~ (forall (exchange : ecdh1PuExchange sha256.digest) eph pub info err,
       h exchange <> None ->
       computeSharedSecret exchange (Some eph) (Some pub) = Err err ->
       exists outer,
         @SecretKey _ _ Float64.amd64 exchange (Some eph) (Some pub) info = Err outer
         /\ Spec.wraps err outer).
Proof.
  intros Hclaim.
  destruct (Hclaim keylessExchange aliceEphemeralJWK (Public bobStaticJWK) (bytes "Bob")
              "unable to process with nil private key"%string
              ltac:(discriminate) eq_refl)
    as (outer & Hout & ctx & Hne & Hctx).
  change (Err "unable to process with nil private key" = Err (A := list byte) outer) in Hout.
  injection Hout as <-.
  apply (f_equal String.length) in Hctx.
  rewrite string_length_append in Hctx.
  destruct ctx as [|c ctx]; [now apply Hne|].
  cbn [String.length] in Hctx. lia.
Qed.

End Witnesses.

(** ** Where the code misses what it sets out to do *)

Module Defects.
Import Fixtures Witnesses.

(** C7: a hash object whose [Size] is 0 needs more rounds than any count
    (no number of empty digests covers a positive length), so the round
    count would exceed 2^32 - 1; yet on amd64, where the conversion of +Inf
    to [int] gives -2^63, the guard [reps >= 1<<32] is not taken: [nistKdf]
    returns no error, runs no round and hands back dkLen zero bytes. *)
Theorem nistKdf_empty_digest_amd64 {State : Type} `{HashState : Hash State}
    (h0 : State) (sharedSecret info : list byte) (dkLen : Z) :
  Size h0 = 0 -> 0 < dkLen < 2 ^ 32 ->
  (forall reps, reps * Size h0 < dkLen)
  /\ @kdf_reps Float64.amd64 (Size h0) dkLen = - 2 ^ 63
  /\ @nistKdf _ _ Float64.amd64 h0 sharedSecret info dkLen
     = (Ok (repeat x00 (Z.to_nat dkLen)), h0).
Proof.
  intros Hsize Hd.
  assert (Hreps : @kdf_reps Float64.amd64 (Size h0) dkLen = - 2 ^ 63).
  { rewrite Hsize. unfold kdf_reps, Float64.of_int.
    destruct (Float64Facts.of_int_small dkLen) as (m & -> & _);
      [unfold Float64.prec; lia|].
    reflexivity. }
  split; [intros reps; rewrite Hsize; lia|]. split; [exact Hreps|].
  rewrite nistKdf_rounds by (rewrite Hreps; lia).
  rewrite Hreps. cbn [Z.to_nat kdf_rounds fst snd Z.opp Z.pow Z.pow_pos Pos.iter].
  f_equal. f_equal. unfold slice_to. cbn [length app]. rewrite Nat.sub_0_r.
  rewrite <- (repeat_length x00 (Z.to_nat dkLen)) at 1. apply firstn_all.
Qed.

Lemma nistKdf_empty_digest_amd64_witness :
  @Size _ emptyHash tt = 0 /\ 0 < 32 < 2 ^ 32
  /\ (forall reps, reps * @Size _ emptyHash tt < 32)
  /\ @kdf_reps Float64.amd64 (@Size _ emptyHash tt) 32 = - 2 ^ 63
  /\ @nistKdf _ emptyHash Float64.amd64 tt (bytes "secret") (bytes "info") 32
     = (Ok (repeat x00 (Z.to_nat 32)), tt).
Proof.
  split; [reflexivity|]. split; [lia|].
  apply (@nistKdf_empty_digest_amd64 _ emptyHash tt (bytes "secret") (bytes "info") 32);
    [reflexivity | lia].
Defined.

(** C8: without a static private key (and with the other parameters
    present) the shared-secret step fails, and [SecretKey] returns its
    error bare: the message is the one of [computeSharedSecret], with no
    context in front, unlike the error of the KDF step two statements
    later, which is wrapped. *)
Theorem SecretKey_shared_secret_error_bare `{Plat : Float64.Platform} :
  computeSharedSecret keylessExchange (Some aliceEphemeralJWK) (Some (Public bobStaticJWK))
  = Err "unable to process with nil private key"
  /\ SecretKey keylessExchange (Some aliceEphemeralJWK) (Some (Public bobStaticJWK))
       (bytes "Bob")
     = Err "unable to process with nil private key"
  /\ ~ Spec.wraps "unable to process with nil private key"
        "unable to process with nil private key".
Proof.
  split; [reflexivity|]. split; [reflexivity|].
  intros (ctx & Hne & Hctx).
  apply (f_equal String.length) in Hctx.
  rewrite string_length_append in Hctx.
  destruct ctx as [|c ctx]; [now apply Hne|].
  cbn [String.length] in Hctx. lia.
Qed.

End Defects.

(** ** More of the package: encoders, the KDF as a whole, the key *)

Section PackageFacts.

Context {State : Type} `{HashState : Hash State} `{Plat : Float64.Platform}.
Import BytesFacts.

(** *** [uint32ToBytes] and [lengthPrefixedArray] *)

(** X1: [uint32ToBytes] gives four bytes that denote the value as a uint32, and
    two values have the same bytes exactly when they agree as uint32. *)
Theorem uint32ToBytes_roundtrip (a b : Z) :
  length (uint32ToBytes a) = 4%nat
  /\ be_decode (uint32ToBytes a) = uint32 a
  /\ (uint32ToBytes a = uint32ToBytes b <-> uint32 a = uint32 b).
Proof.
  split; [reflexivity|].
  assert (Hdec : forall v, be_decode (uint32ToBytes v) = uint32 v).
  { intros v. unfold uint32ToBytes. rewrite be_decode_PutUint32.
    unfold uint32. apply Z.mod_mod. lia. }
  split; [apply Hdec|]. split.
  - intros Heq. rewrite <- (Hdec a), <- (Hdec b), Heq. reflexivity.
  - intros Heq. unfold uint32ToBytes. now rewrite Heq.
Qed.

(** X2: the length prefix makes [lengthPrefixedArray] injective: the field can
    be read back from its encoding. *)
Theorem lengthPrefixedArray_injective (a b : list byte) :
  lengthPrefixedArray a = lengthPrefixedArray b -> a = b.
Proof.
  rewrite !lengthPrefixedArray_field. unfold Spec.field.
  destruct a as [|x a], b as [|y b]; intros Heq;
    try reflexivity; try discriminate Heq.
  apply (f_equal (skipn 4)) in Heq. exact Heq.
Qed.

(** X3: a non-empty field shorter than 2^32 bytes is encoded on four more
    bytes, which denote its length, followed by the field itself. *)
Theorem lengthPrefixedArray_decode (value : list byte) :
  value <> [] -> len value < 2 ^ 32 ->
  len (lengthPrefixedArray value) = 4 + len value
  /\ be_decode (firstn 4 (lengthPrefixedArray value)) = len value
  /\ skipn 4 (lengthPrefixedArray value) = value.
Proof.
  intros Hne Hlt. rewrite lengthPrefixedArray_field.
  destruct value as [|x value]; [contradiction|].
  unfold Spec.field. split; [|split].
  - rewrite len_app. reflexivity.
  - change (firstn 4 (Spec.BigEndian32 (len (x :: value)) ++ x :: value))
      with (Spec.BigEndian32 (len (x :: value))).
    rewrite be_decode_BigEndian32. apply Z.mod_small.
    pose proof (len_nonneg (x :: value)). lia.
  - reflexivity.
Qed.

(** *** The length of the shared secret *)

(** [Bytes] has as many bytes as the absolute value has base-256 digits. *)
Lemma BigIntBytes_length (x n : Z) :
  0 <= n ->
  (Z.abs x < 256 ^ n -> len (BigIntBytes x) <= n)
  /\ (256 ^ n <= Z.abs x -> n < len (BigIntBytes x)).
Proof.
  intros Hn.
  pose proof (BigIntBytes_decode x) as Hdec.
  pose proof (be_decode_range (BigIntBytes x)) as Hrange. rewrite Hdec in Hrange.
  split.
  - intros Hlt.
    destruct (Z.le_gt_cases (len (BigIntBytes x)) n) as [|Hgt]; trivial. exfalso.
    unfold BigIntBytes in *.
    destruct (be_digits_spec _ _ [] (BigIntBytes_fuel x)) as (ds & Hds & _ & Hlo & Hz).
    rewrite Hds, app_nil_r in *.
    destruct (Z.eq_dec (Z.abs x) 0) as [H0|Hne].
    + rewrite (Hz H0) in Hgt. unfold len in Hgt. cbn [length] in Hgt. lia.
    + specialize (Hlo ltac:(lia)).
      assert (256 ^ n <= 256 ^ (len ds - 1)) by (apply Z.pow_le_mono_r; lia).
      lia.
  - intros Hge.
    destruct (Z.lt_ge_cases n (len (BigIntBytes x))) as [|Hle]; trivial. exfalso.
    assert (256 ^ len (BigIntBytes x) <= 256 ^ n)
      by (apply Z.pow_le_mono_r; lia).
    lia.
Qed.

(** X11: the shared secret has no fixed width: with both coordinates below
    256^n it has at most 2n bytes, and it is shorter than 2n bytes as soon
    as one coordinate is below 256^(n-1), that is has a leading zero byte
    in the fixed-width form. *)
Theorem computeSharedSecret_length (exchange : ecdh1PuExchange State)
    (priv eph : PrivateKey) (pub : PublicKey) (n : Z) :
  ourPrivate exchange = Some priv -> 0 < n ->
  let Ze := fst (ScalarMult (PubCurve (Public eph)) (X pub) (Y pub) (BigIntBytes (D eph))) in
  let Zs := fst (ScalarMult (PubCurve (Public priv)) (X pub) (Y pub) (BigIntBytes (D priv))) in
  Z.abs Ze < 256 ^ n -> Z.abs Zs < 256 ^ n ->
  exists secret,
    computeSharedSecret exchange (Some eph) (Some pub) = Ok secret
    /\ len secret <= 2 * n
    /\ (len secret = 2 * n <-> 256 ^ (n - 1) <= Z.abs Ze /\ 256 ^ (n - 1) <= Z.abs Zs).
Proof.
  intros Hpriv Hn Ze Zs HZe HZs.
  exists (BigIntBytes Ze ++ BigIntBytes Zs).
  split; [exact (computeSharedSecret_some exchange priv eph pub Hpriv)|].
  rewrite len_app.
  destruct (BigIntBytes_length Ze n) as [He1 _]; [lia|].
  destruct (BigIntBytes_length Zs n) as [Hs1 _]; [lia|].
  destruct (BigIntBytes_length Ze (n - 1)) as [He2 He3]; [lia|].
  destruct (BigIntBytes_length Zs (n - 1)) as [Hs2 Hs3]; [lia|].
  specialize (He1 HZe). specialize (Hs1 HZs).
  split; [lia|]. split.
  - intros Hfull. split.
    + destruct (Z.le_gt_cases (256 ^ (n - 1)) (Z.abs Ze)) as [|Hlt]; trivial.
      specialize (He2 Hlt). lia.
    + destruct (Z.le_gt_cases (256 ^ (n - 1)) (Z.abs Zs)) as [|Hlt]; trivial.
      specialize (Hs2 Hlt). lia.
  - intros [HeF HsF]. specialize (He3 HeF). specialize (Hs3 HsF). lia.
Qed.

(** *** The info does not tell which field was empty *)

Lemma fixedInfo_build (exchange : ecdh1PuExchange State) info :
  fixedInfo exchange info
  = Spec.build_fixed_info (algorithmID exchange) (partyInfo exchange) info
      (dkLenBits exchange).
Proof.
  unfold fixedInfo, Spec.build_fixed_info. cbv zeta.
  rewrite !lengthPrefixedArray_field, uint32ToBytes_BigEndian32.
  rewrite app_nil_l, <- !app_assoc. reflexivity.
Qed.

(** [SecretKey] reads the algorithm identifier, the party infos and the key
    length through the fixed info only. *)
Lemma SecretKey_fixedInfo (x x' : ecdh1PuExchange State) eph pub info info' :
  ourPrivate x = ourPrivate x' -> h x = h x' -> dkLenBits x = dkLenBits x' ->
  fixedInfo x info = fixedInfo x' info' ->
  SecretKey x eph pub info = SecretKey x' eph pub info'.
Proof.
  intros Hp Hh Hb Hf. unfold SecretKey, computeSharedSecret.
  rewrite Hp, Hh, Hb, Hf. reflexivity.
Qed.

(** X4: an empty field leaves no trace in the fixed info, so a value moved from
    one of the three fields to another, the others being empty, gives the
    same info and the same key: the algorithm identifier a with no party
    info, the local party info a with no algorithm identifier, and the
    remote party info a alone are not told apart. *)
Theorem SecretKey_empty_field_ambiguity (staticPrivateKey : option PrivateKey)
    (hh : option (unit -> State)) (a : list byte) (bits : Z)
    (eph : option PrivateKey) (pub : option PublicKey) :
  fixedInfo (ECDH1PU staticPrivateKey hh a bits []) []
  = fixedInfo (ECDH1PU staticPrivateKey hh [] bits a) []
  /\ fixedInfo (ECDH1PU staticPrivateKey hh a bits []) []
     = fixedInfo (ECDH1PU staticPrivateKey hh [] bits []) a
  /\ SecretKey (ECDH1PU staticPrivateKey hh a bits []) eph pub []
     = SecretKey (ECDH1PU staticPrivateKey hh [] bits a) eph pub []
  /\ SecretKey (ECDH1PU staticPrivateKey hh a bits []) eph pub []
     = SecretKey (ECDH1PU staticPrivateKey hh [] bits []) eph pub a.
Proof.
  assert (H1 : fixedInfo (ECDH1PU staticPrivateKey hh a bits []) []
               = fixedInfo (ECDH1PU staticPrivateKey hh [] bits a) []).
  { rewrite !fixedInfo_build. reflexivity. }
  assert (H2 : fixedInfo (ECDH1PU staticPrivateKey hh a bits []) []
               = fixedInfo (ECDH1PU staticPrivateKey hh [] bits []) a).
  { rewrite !fixedInfo_build. reflexivity. }
  split; [exact H1|]. split; [exact H2|].
  split; apply SecretKey_fixedInfo; trivial.
Qed.

(** *** The errors of [SecretKey] *)

(** X5: the checks of [computeSharedSecret] on the ephemeral key and on the
    remote public key are never the ones that answer: [SecretKey] has
    rejected these parameters before, with its own messages. *)
Theorem SecretKey_never_inner_nil_errors (exchange : ecdh1PuExchange State)
    (eph : option PrivateKey) (pub : option PublicKey) (info : list byte) :
  SecretKey exchange eph pub info <> Err "unable to process with nil ephemeral private key"
  /\ SecretKey exchange eph pub info <> Err "unable to process with remote public key".
Proof.
  unfold SecretKey, computeSharedSecret.
  destruct eph as [e|], pub as [p|], (h exchange) as [new_hash|],
    (ourPrivate exchange) as [priv|]; try (split; discriminate).
  destruct (ScalarMult _ _ _ _) as [ze ye].
  destruct (ScalarMult _ _ _ _) as [zs ys]. cbv zeta.
  destruct (fst (nistKdf _ _ _ _)) as [dk|err]; split; discriminate.
Qed.

(** *** Hash objects that keep the contract of [hash.Hash] *)

Section LawfulPackageFacts.

Context {Lawful : @LawfulHash State HashState}.

(** The output of the KDF, as the concatenation of the round digests. *)
Lemma nistKdf_output (h0 : State) (sharedSecret info : list byte) (dkLen : Z) :
  1 <= hashLen < 2 ^ 63 -> 0 <= dkLen < 2 ^ 32 ->
  fst (nistKdf h0 sharedSecret info dkLen)
  = Ok (Spec.derive digest hashLen sharedSecret info dkLen).
Proof.
  intros Hh Hd.
  assert (Hs : 1 <= Size h0 < 2 ^ 63) by now rewrite Size_hashLen.
  pose proof (kdf_reps_ceil (Size h0) dkLen Hd Hs) as Hreps.
  destruct (ceil_div_bounds dkLen (Size h0)) as [Hb Hcover]; try lia.
  rewrite nistKdf_rounds by lia. cbn [fst]. rewrite Hreps.
  rewrite Size_hashLen in *.
  set (reps := Spec.ceil_div dkLen hashLen) in *.
  pose proof (kdf_rounds_lawful reps sharedSecret info (Z.to_nat reps) 1 h0 [])
    as Hrounds.
  change (Z.of_nat 1) with 1 in Hrounds. rewrite Hrounds by lia.
  rewrite app_nil_l. unfold Spec.derive, Spec.counters. fold reps.
  f_equal. apply slice_to_firstn.
  rewrite len_flat_map_digest. unfold len. rewrite length_map, length_seq. lia.
Qed.

Lemma ceil_div_mono a b c : 0 <= a <= b -> 1 <= c -> Spec.ceil_div a c <= Spec.ceil_div b c.
Proof. intros Hab Hc. unfold Spec.ceil_div. apply Z.div_le_mono; lia. Qed.

Lemma counters_prefix r1 r2 : 0 <= r1 <= r2 ->
  exists rest, Spec.counters r2 = Spec.counters r1 ++ rest.
Proof.
  intros Hr. unfold Spec.counters.
  exists (map (fun i => Z.of_nat i) (seq (1 + Z.to_nat r1) (Z.to_nat r2 - Z.to_nat r1))).
  rewrite <- map_app, <- seq_app. do 2 f_equal. lia.
Qed.

(** X6: counter mode: the key derived for a shorter length is the beginning of
    the key derived for a longer one from the same secret and info,
    whatever the two hash objects held before. *)
Theorem nistKdf_prefix (h1 h2 : State) (sharedSecret info : list byte) (n1 n2 : Z) :
  1 <= hashLen < 2 ^ 63 -> 0 <= n1 <= n2 -> n2 < 2 ^ 32 ->
  exists k1 k2,
    fst (nistKdf h1 sharedSecret info n1) = Ok k1
    /\ fst (nistKdf h2 sharedSecret info n2) = Ok k2
    /\ k1 = firstn (Z.to_nat n1) k2.
Proof.
  intros Hh Hn Hn2.
  do 2 eexists. split; [apply nistKdf_output; lia|]. split; [apply nistKdf_output; lia|].
  unfold Spec.derive.
  destruct (ceil_div_bounds n1 hashLen) as [Hb1 Hc1]; try lia.
  destruct (counters_prefix (Spec.ceil_div n1 hashLen) (Spec.ceil_div n2 hashLen))
    as [rest ->]; [split; [lia | apply ceil_div_mono; lia]|].
  rewrite flat_map_app, firstn_firstn.
  replace (Init.Nat.min (Z.to_nat n1) (Z.to_nat n2)) with (Z.to_nat n1) by lia.
  rewrite firstn_app.
  set (F := flat_map _ (Spec.counters (Spec.ceil_div n1 hashLen))).
  assert (HF : n1 <= len F).
  { unfold F. rewrite len_flat_map_digest. unfold Spec.counters, len.
    rewrite length_map, length_seq. lia. }
  replace (Z.to_nat n1 - length F)%nat with 0%nat by (unfold len in HF; lia).
  cbn [firstn]. now rewrite app_nil_r.
Qed.




(** *** [SecretKey] as a whole *)

(** X9: the key is the KDF output of [dkLenBits / 8] bytes over the shared
    secret Ze || Zs and the fixed info: the three steps composed. *)
Theorem SecretKey_derive (exchange : ecdh1PuExchange State) (priv : PrivateKey)
    (new_hash : unit -> State) (eph : PrivateKey) (pub : PublicKey) (info : list byte) :
  ourPrivate exchange = Some priv -> h exchange = Some new_hash ->
  1 <= hashLen < 2 ^ 63 -> 0 <= dkLenBits exchange < 2 ^ 32 ->
  SecretKey exchange (Some eph) (Some pub) info
  = Ok (Spec.derive digest hashLen
          (BigIntBytes (fst (ScalarMult (PubCurve (Public eph)) (X pub) (Y pub)
                               (BigIntBytes (D eph))))
           ++ BigIntBytes (fst (ScalarMult (PubCurve (Public priv)) (X pub) (Y pub)
                                  (BigIntBytes (D priv)))))
          (Spec.build_fixed_info (algorithmID exchange) (partyInfo exchange) info
             (dkLenBits exchange))
          (dkLenBits exchange / 8)).
Proof.
  intros Hpriv Hh Hlen Hbits.
  unfold SecretKey. rewrite Hh.
  rewrite (computeSharedSecret_some exchange priv eph pub Hpriv). cbv zeta.
  rewrite Z.shiftr_div_pow2 by lia. change (2 ^ 3) with 8.
  rewrite nistKdf_output, fixedInfo_build; [reflexivity | lia |].
  split; [apply Z.div_pos; lia | apply Z.div_lt_upper_bound; lia].
Qed.


End LawfulPackageFacts.

End PackageFacts.

(** The coordinates Ze and Zs of the test vectors. *)
Lemma shared_secret_coordinates :
  fst (ScalarMult (PubCurve (Public Fixtures.aliceEphemeralJWK))
         (X (Public Fixtures.bobStaticJWK)) (Y (Public Fixtures.bobStaticJWK))
         (BigIntBytes (D Fixtures.aliceEphemeralJWK)))
  = 0x9e56d91d817135d372834283bf84269cfb316ea3da806a48f6daa7798cfe90c4
  /\ fst (ScalarMult (PubCurve (Public Fixtures.aliceStaticJWK))
            (X (Public Fixtures.bobStaticJWK)) (Y (Public Fixtures.bobStaticJWK))
            (BigIntBytes (D Fixtures.aliceStaticJWK)))
     = 0xe3ca3474384c9f62b30bfd4c688b3e7d4110a1b4badc3cc54ef7b81241efd50d.
Proof. vm_compute. split; reflexivity. Qed.

Module PackageWitnesses.
Import Fixtures Witnesses.

Lemma lengthPrefixedArray_injective_witness :
  lengthPrefixedArray (bytes "Bob") = lengthPrefixedArray [x42; x6f; x62]
  /\ bytes "Bob" = [x42; x6f; x62].
Proof.
  split; [reflexivity|].
  apply (lengthPrefixedArray_injective (bytes "Bob") [x42; x6f; x62]). reflexivity.
Defined.

Lemma lengthPrefixedArray_decode_witness :
  bytes "Alice" <> [] /\ len (bytes "Alice") < 2 ^ 32
  /\ len (lengthPrefixedArray (bytes "Alice")) = 4 + len (bytes "Alice")
  /\ be_decode (firstn 4 (lengthPrefixedArray (bytes "Alice"))) = len (bytes "Alice")
  /\ skipn 4 (lengthPrefixedArray (bytes "Alice")) = bytes "Alice".
Proof.
  assert (Hne : bytes "Alice" <> []) by discriminate.
  assert (Hlt : len (bytes "Alice") < 2 ^ 32) by reflexivity.
  split; [exact Hne|]. split; [exact Hlt|].
  exact (lengthPrefixedArray_decode (bytes "Alice") Hne Hlt).
Defined.

Lemma nistKdf_prefix_witness :
  1 <= 32 < 2 ^ 63 /\ 0 <= 16 <= 48 /\ 48 < 2 ^ 32
  /\ exists k1 k2,
       fst (@nistKdf _ _ Float64.amd64 (sha256.New tt) (bytes "secret") (bytes "info") 16)
       = Ok k1
       /\ fst (@nistKdf _ _ Float64.amd64 (sha256.New tt) (bytes "secret") (bytes "info") 48)
          = Ok k2
       /\ k1 = firstn (Z.to_nat 16) k2.
Proof.
  split; [lia|]. split; [lia|]. split; [lia|].
  apply (@nistKdf_prefix _ _ Float64.amd64 LawfulHash_sha256); simpl; lia.
Defined.



Lemma SecretKey_derive_witness :
  ourPrivate aliceExchange = Some aliceStaticJWK /\ h aliceExchange = Some sha256.New
  /\ 1 <= 32 < 2 ^ 63 /\ 0 <= dkLenBits aliceExchange < 2 ^ 32
  /\ @SecretKey _ _ Float64.amd64 aliceExchange (Some aliceEphemeralJWK)
       (Some (Public bobStaticJWK)) (bytes "Bob")
     = Ok (Spec.derive sha256.Sum256 32
             (BigIntBytes (fst (ScalarMult (PubCurve (Public aliceEphemeralJWK))
                                  (X (Public bobStaticJWK)) (Y (Public bobStaticJWK))
                                  (BigIntBytes (D aliceEphemeralJWK))))
              ++ BigIntBytes (fst (ScalarMult (PubCurve (Public aliceStaticJWK))
                                     (X (Public bobStaticJWK)) (Y (Public bobStaticJWK))
                                     (BigIntBytes (D aliceStaticJWK)))))
             (Spec.build_fixed_info (algorithmID aliceExchange) (partyInfo aliceExchange)
                (bytes "Bob") (dkLenBits aliceExchange))
             (dkLenBits aliceExchange / 8)).
Proof.
  assert (Hb : 0 <= dkLenBits aliceExchange < 2 ^ 32) by (simpl; lia).
  split; [reflexivity|]. split; [reflexivity|]. split; [lia|]. split; [exact Hb|].
  apply (@SecretKey_derive _ _ Float64.amd64 LawfulHash_sha256 aliceExchange aliceStaticJWK
           sha256.New aliceEphemeralJWK (Public bobStaticJWK) (bytes "Bob") eq_refl eq_refl);
    [simpl; lia | exact Hb].
Defined.


Lemma computeSharedSecret_length_witness :
  ourPrivate aliceExchange = Some aliceStaticJWK /\ 0 < 32
  /\ exists secret,
       computeSharedSecret aliceExchange (Some aliceEphemeralJWK)
         (Some (Public bobStaticJWK)) = Ok secret
       /\ len secret <= 2 * 32.
Proof.
  split; [reflexivity|]. split; [lia|].
  destruct shared_secret_coordinates as [HZe HZs].
  destruct (computeSharedSecret_length aliceExchange aliceStaticJWK aliceEphemeralJWK
              (Public bobStaticJWK) 32 eq_refl) as (secret & Hs & Hle & _).
  - lia.
  - rewrite HZe. reflexivity.
  - rewrite HZs. reflexivity.
  - exists secret. split; [exact Hs | exact Hle].
Defined.

End PackageWitnesses.
